(** * fixed::String<N>: a shallow embedding of [include/fixed-string]

    The header defines one class template, [fixed::String<N>], a buffer of
    [N + 1] characters, and a handful of [constexpr] functions over it.
    The constructors, the member functions and the non-member functions are
    translated below as Rocq functions (stream insertion and the
    [is_string] trait are left out):

    - a [char] is its integer value (a [Z]); ['\0'] is [0] and ['0'] is [48];
    - a [std::array<char, n>] is a list of [n] characters, read with stdpp's
      lookup [!!] and written with stdpp's insert [<[i:=c]>];
    - the template parameter [N] of [String<N>] is the field [size] of the
      record [String], and the typing fact "the member [_arr] has [N + 1]
      slots" is the predicate [well_typed];
    - [FS_ASSERT] either does nothing (checks compiled out by [NDEBUG] or
      [FS_NOASSERT]) or prints and calls [std::terminate]; functions that
      reach an [FS_ASSERT] or index a caller-supplied array run in the
      [outcome] monad;
    - a [requires] clause that is not satisfied makes the call ill-formed:
      [instantiation];
    - the accumulator of [atoi] is a [std::size_t], an unsigned integer of
      [w] bits: its arithmetic is written out with [wrap w]; sizes and
      indices, which the header only compares and increments below [N + 1],
      are natural numbers. *)

From Stdlib Require Import ZArith NArith Lia String Ascii.
From stdpp Require Import base list numbers.
From Equations Require Import Equations.

Module fixed.

Local Open Scope Z_scope.

(** ** Characters and arrays *)

Abbreviation char := Z (only parsing).
Abbreviation array := (list Z) (only parsing).

(** A character literal ['a'] of the basic character set: its code is below
    128, so its value does not depend on the signedness of plain [char]. *)
Definition chr (a : ascii) : char := Z.of_N (N_of_ascii a).

(** The value of a byte of a string literal as a plain [char] of eight
    bits: where plain [char] is signed ([signed_char = true]) the bytes from
    128 on are the negative values [-128 .. -1], where it is unsigned they
    are [128 .. 255]. *)
Definition char_of_byte (signed_char : bool) (a : ascii) : char :=
  let n := Z.of_N (N_of_ascii a) in
  if signed_char && (128 <=? n) then n - 256 else n.

(** ['\0'] *)
Definition NUL : char := 0.

(** A string literal ["abc"]: its characters followed by the terminator the
    compiler appends. *)
Definition literal (signed_char : bool) (s : string) : array :=
  map (char_of_byte signed_char) (list_ascii_of_string s) ++ [NUL].

(** ** Outcomes of a call *)

(** A call returns a value, or a failed [FS_ASSERT] prints its message and
    calls [std::terminate], or (checks compiled out) a [std::array] is
    indexed outside its bounds, which the language leaves undefined. *)
Inductive outcome (A : Type) : Type :=
| Returns (a : A)
| Terminates (msg : string)
| Undefined.
Arguments Returns {A} a.
Arguments Terminates {A} msg.
Arguments Undefined {A}.

#[global] Instance outcome_ret : MRet outcome := fun A a => Returns a.
#[global] Instance outcome_bind : MBind outcome := fun A B k m =>
  match m with
  | Returns a => k a
  | Terminates msg => Terminates msg
  | Undefined => Undefined
  end.

(** The result of instantiating a constrained template: the constraint of
    the [requires] clause fails and the call does not compile, or it holds
    and the call denotes [a]. *)
Inductive instantiation (A : Type) : Type :=
| ill_formed
| well_formed (a : A).
Arguments ill_formed {A}.
Arguments well_formed {A} a.

(** [a[i]] on a [std::array] (or a built-in array) supplied by the caller. *)
Definition array_at (a : array) (i : nat) : outcome char :=
  match a !! i with
  | Some c => Returns c
  | None => Undefined
  end.

(** [FS_ASSERT(CONDITION, msg)]: [static_cast<void>(0)] when [NDEBUG] or
    [FS_NOASSERT] is defined ([checks = false]), and then the macro argument
    [CONDITION] is not evaluated at all; otherwise
    [if (not (CONDITION)) { safe_print(...); std::terminate(); }]. *)
Definition FS_ASSERT (checks : bool) (CONDITION : outcome bool) (msg : string) : outcome unit :=
  if checks
  then (b ← CONDITION; if negb b then Terminates msg else mret tt)
  else mret tt.

(** [std::copy_n(first, n, result)]: [first] is the list of the elements from
    the source iterator on, [result] is the position [off] in [dst]. *)
Fixpoint copy_n (first : array) (n : nat) (dst : array) (off : nat) {struct n} : array :=
  match n with
  | O => dst
  | S n' =>
      match first with
      | c :: first' => copy_n first' n' (<[off := c]> dst) (S off)
      | [] => dst
      end
  end.

(** [std::equal(first1, last1, first2)]: the range [first1, last1) is the
    list [l1], [l2] is the list of the elements from [first2] on. *)
Fixpoint equal (l1 l2 : array) : bool :=
  match l1 with
  | [] => true
  | x :: l1' =>
      match l2 with
      | y :: l2' => (x =? y) && equal l1' l2'
      | [] => false
      end
  end.

(** [std::size_t] arithmetic: reduction modulo [2 ^ w]. *)
Definition wrap (w : N) (z : Z) : Z := z mod 2 ^ Z.of_N w.

(** ** The class template *)

(** [template <std::size_t N> struct String { std::array<char, size + 1> _arr; }] *)
Record String : Type := mkString { size : nat; _arr : list Z }.

(** What the type [std::array<char, size + 1>] of the member says. *)
Definition well_typed (s : String) : Prop := length (_arr s) = S (size s).

(** Invariant I1: the slot at index [size] holds the terminator. *)
Definition terminated (s : String) : Prop := _arr s !! size s = Some NUL.

(** [arr_from_str<N>(str)] *)
Definition arr_from_str (checks : bool) (N : nat) (str : array) : outcome array :=
  FS_ASSERT checks (c ← array_at str N; mret (c =? NUL))
    "String literal must be null-terminated";;
  let arr := replicate (N + 1) NUL in
  mret (copy_n str (N + 1) arr 0).

(** [explicit String() : _arr{} {}] *)
Definition String_default (N : nat) : String :=
  mkString N (replicate (N + 1) NUL).

(** [String(char const (&str)[size + 1]) : _arr{arr_from_str<size>(str)} {}] *)
Definition String_from_str (checks : bool) (N : nat) (str : array) : outcome String :=
  arr ← arr_from_str checks N str;
  mret (mkString N arr).

(** [explicit String(std::array<char, size + 1>&& str) : _arr{std::move(str)}
    { FS_ASSERT(_arr[size] == '\0', ...); }] *)
Definition String_from_array (checks : bool) (N : nat) (str : array) : outcome String :=
  let s := mkString N str in
  FS_ASSERT checks (c ← array_at (_arr s) (size s); mret (c =? NUL))
    "char array must be null-terminated";;
  mret s.

(** [explicit String(char c) requires (size == 1) { _arr[0] = c; _arr[1] = '\0'; }];
    the two slots of the member are both written. *)
Definition String_from_char (c : char) : String :=
  mkString 1 (<[1%nat := NUL]> (<[0%nat := c]> (replicate 2 NUL))).

(** The deduction guide [String(char const (&)[N]) -> String<N - 1>],
    [requires (N > 0)]. *)
Definition String_of_literal (checks : bool) (str : array) : instantiation (outcome String) :=
  if (0 <? length str)%nat
  then well_formed (String_from_str checks (length str - 1) str)
  else ill_formed.

(** [String& operator=(String const&) = default]: the left operand becomes a
    member-wise copy of the right one (both are [String<N>]). *)
Definition assign (self other : String) : String :=
  mkString (size self) (_arr other).

(** [c_str()] *)
Definition c_str (s : String) : array := _arr s.

(** [operator[](i)] *)
Definition subscript (checks : bool) (s : String) (i : nat) : outcome char :=
  FS_ASSERT checks (mret (i <? size s)%nat) "subscript index out of bounds";;
  array_at (_arr s) i.

(** [contains(c)]: the loop [for (i = 0; i < size; ++i)], with [todo] the
    number of iterations left, [size - i]. *)
Fixpoint contains_loop (checks : bool) (s : String) (c : char) (i todo : nat) : outcome bool :=
  match todo with
  | O => mret false
  | S todo' =>
      x ← subscript checks s i;
      if x =? c then mret true else contains_loop checks s c (S i) todo'
  end.

Definition contains (checks : bool) (s : String) (c : char) : outcome bool :=
  contains_loop checks s c 0 (size s).

(** [find(c)] *)
Fixpoint find_loop (checks : bool) (s : String) (c : char) (i todo : nat) : outcome nat :=
  match todo with
  | O => mret (size s)
  | S todo' =>
      x ← subscript checks s i;
      if x =? c then mret i else find_loop checks s c (S i) todo'
  end.

Definition find (checks : bool) (s : String) (c : char) : outcome nat :=
  find_loop checks s c 0 (size s).

(** [atoi()]: [r *= 10; r += _arr[i] - '0';] on a [std::size_t r]. The
    difference is an [int]; adding it to [r] converts it to [std::size_t]. *)
Fixpoint atoi_loop (w : N) (s : String) (i todo : nat) (r : Z) : outcome Z :=
  match todo with
  | O => mret r
  | S todo' =>
      c ← array_at (_arr s) i;
      let r := wrap w (r * 10) in
      let r := wrap w (r + wrap w (c - chr "0")) in
      atoi_loop w s (S i) todo' r
  end.

Definition atoi (w : N) (s : String) : outcome Z :=
  atoi_loop w s 0 (size s) 0.

(** ** Non-member functions *)

(** [streq(lhs, rhs)]: [if constexpr (N != M) { return false; }] and then
    [std::equal] over all [N + 1] slots of [lhs]. *)
Definition streq (lhs rhs : String) : bool :=
  if negb (size lhs =? size rhs)%nat then false
  else equal (_arr lhs) (_arr rhs).

(** [operator==(lhs, rhs)] *)
Definition eq_op (lhs rhs : String) : bool := streq lhs rhs.

(** [operator+(String<N> const& lhs, String<M> const& rhs)] *)
Definition plus (lhs rhs : String) : String :=
  let N := size lhs in
  let M := size rhs in
  let rtn := _arr (String_default (N + M)) in
  let rtn := copy_n (_arr lhs) N rtn 0 in
  let rtn := copy_n (_arr rhs) M rtn N in
  let rtn := <[(N + M)%nat := NUL]> rtn in
  mkString (N + M) rtn.

(** [lhs + String{rhs}] and [String{lhs} + rhs] for a single character. *)
Definition plus_char_r (lhs : String) (c : char) : String := plus lhs (String_from_char c).
Definition plus_char_l (c : char) (rhs : String) : String := plus (String_from_char c) rhs.

(** [substring<Begin, End>(s)]: the loop
    [for (i = 0; i < End - Begin; ++i) { r._arr[i] = s[Begin + i]; }]. *)
Fixpoint substring_loop (checks : bool) (s : String) (Begin : nat) (i todo : nat) (r : array)
  : outcome array :=
  match todo with
  | O => mret r
  | S todo' =>
      c ← subscript checks s (Begin + i);
      substring_loop checks s Begin (S i) todo' (<[i := c]> r)
  end.

Definition substring (checks : bool) (Begin End : nat) (s : String)
  : instantiation (outcome String) :=
  if ((0 <=? Begin)%nat && (End <=? size s)%nat && (Begin <=? End)%nat)%bool
  then well_formed (
    let r := String_default (End - Begin) in
    arr ← substring_loop checks s Begin 0 (End - Begin) (_arr r);
    mret (mkString (End - Begin) (<[(End - Begin)%nat := NUL]> arr)))
  else ill_formed.

(** ** Integer to string *)

(** Both recursions below divide by ten; they terminate because the number of
    bits of the argument decreases. *)
Ltac div10_decreases x :=
  let Hx := fresh in
  assert (Hx : x <> 0%N) by lia;
  let q := fresh "q" in
  let Hle := fresh in
  pose proof (N.Div0.mul_div_le x 10) as Hle;
  revert Hle; generalize (x / 10)%N; intros q Hle;
  destruct (N.eq_dec q 0%N) as [->|Hq];
  [ rewrite (N.size_log2 x) by assumption; simpl; lia
  | rewrite !N.size_log2 by assumption;
    enough (N.log2 q + 1 <= N.log2 x)%N by lia;
    apply N.log2_le_pow2; [lia|];
    rewrite N.pow_add_r, N.pow_1_r;
    assert (0 < q)%N as Hpos by lia;
    pose proof (N.log2_spec q Hpos) as [? _]; lia ].

(** [template <std::unsigned_integral auto x>
     inline constexpr unsigned char log10{x ? 1 + log10<x / 10U> : 0};]
    The argument is a value of any unsigned integer type, an [N] here. The
    initialiser is in braces, so a value that did not fit [unsigned char]
    would not compile rather than wrap; [log10_fits_unsigned_char] shows
    that it fits. *)
Equations? log10 (x : N) : N by wf (N.to_nat (N.size x)) lt :=
  log10 x with N.eq_dec x 0%N => {
    | left _ := 0%N
    | right _ := (1 + log10 (x / 10))%N }.
Proof. div10_decreases x. Qed.

(** [i--] on an [unsigned char]: [0] wraps to [255]. *)
Definition uchar_dec (i : N) : N := if N.eq_dec i 0%N then 255%N else (i - 1)%N.

(** The loop of [array_itoa]:
    [for (auto n{x}; n > 0; n /= 10U) { _arr[i--] = static_cast<char>(n % 10U + '0'); }] *)
Equations? array_itoa_loop (n : N) (i : N) (_arr : list Z) : list Z
  by wf (N.to_nat (N.size n)) lt :=
  array_itoa_loop n i _arr with N.eq_dec n 0%N => {
    | left _ := _arr
    | right _ :=
        array_itoa_loop (n / 10)%N (uchar_dec i)
          (<[N.to_nat i := Z.of_N (n mod 10) + chr "0"]> _arr) }.
Proof. div10_decreases n. Qed.

(** [array_itoa<x>()] *)
Definition array_itoa (x : N) : array :=
  let _arr := replicate (N.to_nat (log10 x) + 2) NUL in
  let _arr := <[(N.to_nat (log10 x) + 1)%nat := NUL]> _arr in
  let i := log10 x in
  array_itoa_loop x i _arr.

(** [inline constexpr String<log10<x> + 1> itoa{array_itoa<x>()};] *)
Definition itoa (checks : bool) (x : N) : outcome String :=
  String_from_array checks (N.to_nat (log10 x) + 1) (array_itoa x).

(** [operator+(String<N> const& lhs, T const& rhs)] and
    [operator+(T const& lhs, String<N> const& rhs)] for a character array
    operand: [lhs + String{rhs}] and [String{lhs} + rhs]. The operand is
    converted through the deduction guide and the constructor from a
    literal; the [requires] clause asks that this conversion compiles. *)
Definition plus_literal_r (checks : bool) (lhs : String) (rhs : array)
  : instantiation (outcome String) :=
  match String_of_literal checks rhs with
  | ill_formed => ill_formed
  | well_formed conv => well_formed (r ← conv; mret (plus lhs r))
  end.

Definition plus_literal_l (checks : bool) (lhs : array) (rhs : String)
  : instantiation (outcome String) :=
  match String_of_literal checks lhs with
  | ill_formed => ill_formed
  | well_formed conv => well_formed (l ← conv; mret (plus l rhs))
  end.

(** ** Reference notions used to state the properties *)

(** The position of the first occurrence of [c] in [cs]; the length of
    [cs] when there is none. *)
Fixpoint first_index (c : Z) (cs : list Z) : nat :=
  match cs with
  | [] => O
  | x :: cs' => if x =? c then O else S (first_index c cs')
  end.

(** The content of an instance: its first [size] characters. *)
Definition content (s : String) : array := take (size s) (_arr s).

(** The sum of [(c_i - '0') * 10 ^ (n - 1 - i)] over the [n] characters of
    [cs], as an integer (no reduction). *)
Fixpoint weighted_sum (cs : array) : Z :=
  match cs with
  | [] => 0
  | c :: cs' => (c - chr "0") * 10 ^ Z.of_nat (length cs') + weighted_sum cs'
  end.

(** The decimal digits of [x], most significant first, as characters; no
    digit at all for [0]. *)
Equations? digits (x : N) : list Z by wf (N.to_nat (N.size x)) lt :=
  digits x with N.eq_dec x 0%N => {
    | left _ := []
    | right _ := digits (x / 10)%N ++ [Z.of_N (x mod 10) + chr "0"] }.
Proof. div10_decreases x. Qed.

(** The canonical base-10 representation: ["0"] for zero, the digits
    without leading zero otherwise. *)
Definition canonical_decimal (x : N) : array :=
  if N.eq_dec x 0%N then [chr "0"] else digits x.

Local Close Scope Z_scope.

(** * Properties *)

(** ** The outcome monad *)

Ltac monad_simpl :=
  repeat (progress (unfold mbind, mret, outcome_bind, outcome_ret; simpl)).

Lemma array_at_lookup (a : list Z) (i : nat) (c : Z) :
  a !! i = Some c → array_at a i = Returns c.
Proof. intros H. unfold array_at. by rewrite H. Qed.

Lemma FS_ASSERT_holds (checks : bool) (msg : string) :
  FS_ASSERT checks (Returns true) msg = Returns tt.
Proof. by destruct checks. Qed.

Lemma FS_ASSERT_off (cond : outcome bool) (msg : string) :
  FS_ASSERT false cond msg = Returns tt.
Proof. done. Qed.

Lemma FS_ASSERT_fails (msg : string) :
  FS_ASSERT true (Returns false) msg = Terminates msg.
Proof. done. Qed.

(** ** [std::copy_n] *)

Lemma length_copy_n (first : list Z) (n : nat) (dst : list Z) (off : nat) :
  length (copy_n first n dst off) = length dst.
Proof.
  revert first dst off. induction n as [|n IH]; intros [|c first] dst off; simpl; try done.
  by rewrite IH, length_insert.
Qed.

(** [copy_n] overwrites the [n] slots from [off] on with the first [n]
    elements of the source and leaves the others alone. *)
Lemma copy_n_spec (first : list Z) (n : nat) (dst : list Z) (off : nat) :
  n ≤ length first → off + n ≤ length dst →
  copy_n first n dst off = take off dst ++ take n first ++ drop (off + n) dst.
Proof.
  revert first dst off. induction n as [|n IH]; intros first dst off Hsrc Hdst; simpl.
  - rewrite Nat.add_0_r. simpl. by rewrite take_drop.
  - destruct first as [|c first]; simpl in *; [lia|].
    rewrite IH by (rewrite ?length_insert; lia).
    rewrite (take_S_r _ off c) by (apply list_lookup_insert_eq; lia).
    rewrite take_insert_ge by lia.
    rewrite drop_insert_lt by lia.
    replace (off + S n) with (S off + n) by lia. by rewrite <- app_assoc.
Qed.

(** ** Concatenation *)

Lemma size_plus (a b : String) : size (plus a b) = size a + size b.
Proof. done. Qed.

(** The buffer of [a + b]: the content of [a], the content of [b], one
    terminator. *)
Lemma plus_arr (a b : String) :
  well_typed a → well_typed b →
  _arr (plus a b) = content a ++ content b ++ [NUL].
Proof.
  unfold well_typed, content, plus, String_default. simpl. intros Ha Hb.
  set (N := size a) in *. set (M := size b) in *.
  rewrite (copy_n_spec (_arr a) N) by (rewrite ?length_replicate; lia).
  rewrite take_0, drop_replicate. simpl.
  assert (HlenA : length (take N (_arr a)) = N) by (rewrite length_take; lia).
  assert (HlenB : length (take M (_arr b)) = M) by (rewrite length_take; lia).
  rewrite copy_n_spec; cycle 1.
  { lia. }
  { rewrite length_app, length_replicate. lia. }
  rewrite take_app_length' by done.
  rewrite drop_app_ge by lia.
  rewrite HlenA, drop_replicate.
  rewrite app_assoc.
  rewrite insert_app_r_alt by (rewrite length_app; lia).
  rewrite length_app, HlenA, HlenB, Nat.sub_diag.
  replace (N + M + 1 - N - (N + M - N)) with 1 by lia. simpl.
  by rewrite <- app_assoc.
Qed.

Lemma length_content (s : String) : well_typed s → length (content s) = size s.
Proof. unfold well_typed, content. intros H. rewrite length_take. lia. Qed.

Lemma plus_well_typed (a b : String) :
  well_typed a → well_typed b → well_typed (plus a b).
Proof.
  intros Ha Hb. unfold well_typed. rewrite plus_arr by done.
  rewrite !length_app, !length_content by done. rewrite size_plus. simpl. lia.
Qed.

Lemma content_plus (a b : String) :
  well_typed a → well_typed b → content (plus a b) = content a ++ content b.
Proof.
  intros Ha Hb. unfold content at 1. rewrite plus_arr, size_plus by done.
  rewrite app_assoc. apply take_app_length'.
  rewrite length_app, !length_content by done. lia.
Qed.

Lemma content_lookup (s : String) (i : nat) :
  i < size s → content s !! i = _arr s !! i.
Proof. intros H. unfold content. by apply lookup_take_lt. Qed.

Lemma String_eq (s t : String) : size s = size t → _arr s = _arr t → s = t.
Proof. destruct s, t. simpl. by intros -> ->. Qed.

(** C5: [a + b] is a [String<N + M>]; its characters at positions
    [0 .. N-1] are those of [a], its characters at positions [N .. N+M-1]
    are those of [b], and its slot [N + M] holds the terminator. *)
Theorem plus_concatenates (a b : String) :
  well_typed a → well_typed b →
  size (plus a b) = size a + size b ∧
  well_typed (plus a b) ∧
  (∀ i, i < size a → _arr (plus a b) !! i = _arr a !! i) ∧
  (∀ j, j < size b → _arr (plus a b) !! (size a + j) = _arr b !! j) ∧
  _arr (plus a b) !! (size a + size b) = Some NUL.
Proof.
  intros Ha Hb.
  pose proof (length_content a Ha) as Hla.
  pose proof (length_content b Hb) as Hlb.
  split; [done|]. split; [by apply plus_well_typed|].
  rewrite plus_arr by done. repeat split.
  - intros i Hi. rewrite lookup_app_l by lia. by apply content_lookup.
  - intros j Hj. rewrite lookup_app_r by lia.
    rewrite Hla, Nat.add_comm, Nat.add_sub.
    rewrite lookup_app_l by lia. by apply content_lookup.
  - rewrite lookup_app_r by lia. rewrite Hla, Nat.add_comm, Nat.add_sub.
    rewrite lookup_app_r by lia. by rewrite Hlb, Nat.sub_diag.
Qed.

Lemma plus_concatenates_witness :
  plus (mkString 2 [97; 98; 0]%Z) (mkString 1 [99; 0]%Z) = mkString 3 [97; 98; 99; 0]%Z ∧
  _arr (plus (mkString 2 [97; 98; 0]%Z) (mkString 1 [99; 0]%Z)) !! 3 = Some NUL.
Proof.
  split; [reflexivity|].
  destruct (plus_concatenates (mkString 2 [97; 98; 0]%Z) (mkString 1 [99; 0]%Z))
    as (_ & _ & _ & _ & Hterm); [reflexivity | reflexivity |].
  exact Hterm.
Defined.

(** C6: concatenation is associative: [(a + b) + c] and [a + (b + c)] are
    the same [String<N1 + N2 + N3>] value. *)
Theorem plus_associative (a b c : String) :
  well_typed a → well_typed b → well_typed c →
  plus (plus a b) c = plus a (plus b c).
Proof.
  intros Ha Hb Hc.
  pose proof (plus_well_typed a b Ha Hb) as Hab.
  pose proof (plus_well_typed b c Hb Hc) as Hbc.
  apply String_eq.
  - rewrite !size_plus. lia.
  - rewrite !plus_arr, !content_plus by done. by rewrite <- !app_assoc.
Qed.

Lemma plus_associative_witness :
  plus (plus (mkString 1 [97; 0]%Z) (mkString 2 [98; 99; 0]%Z)) (mkString 1 [100; 0]%Z) =
  plus (mkString 1 [97; 0]%Z) (plus (mkString 2 [98; 99; 0]%Z) (mkString 1 [100; 0]%Z)).
Proof.
  apply (plus_associative (mkString 1 [97; 0]%Z) (mkString 2 [98; 99; 0]%Z)
           (mkString 1 [100; 0]%Z)); reflexivity.
Defined.

(** ** Indexing *)

Lemma subscript_in_range (checks : bool) (s : String) (i : nat) (c : Z) :
  i < size s → _arr s !! i = Some c → subscript checks s i = Returns c.
Proof.
  intros Hi Hc. unfold subscript, FS_ASSERT, array_at. rewrite Hc.
  apply Nat.ltb_lt in Hi. monad_simpl. rewrite Hi. by destruct checks.
Qed.

Lemma well_typed_lookup (s : String) (i : nat) :
  well_typed s → i ≤ size s → ∃ c, _arr s !! i = Some c.
Proof.
  unfold well_typed. intros Hs Hi.
  destruct (lookup_lt_is_Some_2 (_arr s) i) as [c Hc]; [lia|]. by exists c.
Qed.

(** C8: under the precondition [i < N], [operator[]] returns the character
    stored at position [i], whether the checks are compiled in or not (the
    failure branch of the assertion is not taken); with the checks compiled
    in, indexing at [i >= N] prints the diagnostic and terminates; indexing
    at [N - 1] succeeds whenever [N >= 1]. *)
Theorem subscript_spec (checks : bool) (s : String) (i : nat) :
  well_typed s →
  (i < size s → ∃ c, _arr s !! i = Some c ∧ subscript checks s i = Returns c) ∧
  (size s ≤ i → subscript true s i = Terminates "subscript index out of bounds") ∧
  (1 ≤ size s →
   ∃ c, _arr s !! (size s - 1) = Some c ∧ subscript checks s (size s - 1) = Returns c).
Proof.
  intros Hs. repeat split.
  - intros Hi. destruct (well_typed_lookup s i Hs) as [c Hc]; [lia|].
    exists c. split; [done|]. by apply subscript_in_range.
  - intros Hi. unfold subscript, FS_ASSERT. monad_simpl.
    apply Nat.ltb_ge in Hi. by rewrite Hi.
  - intros HN. destruct (well_typed_lookup s (size s - 1) Hs) as [c Hc]; [lia|].
    exists c. split; [done|]. apply subscript_in_range; [lia|done].
Qed.

Lemma subscript_spec_witness :
  subscript true (mkString 3 [97; 98; 99; 0]%Z) 3
  = Terminates "subscript index out of bounds".
Proof.
  destruct (subscript_spec true (mkString 3 [97; 98; 99; 0]%Z) 3) as (_ & Hout & _);
    [reflexivity|].
  apply Hout. simpl. lia.
Defined.

(** ** Searching *)

Section Scan.

Variables (checks : bool) (s : String) (c : Z).
Hypothesis Hs : well_typed s.

(** The loop of [find], entered at [i] with [todo] iterations left. *)
Lemma find_loop_spec (todo i : nat) :
  i + todo = size s →
  (∀ k, i ≤ k → k < size s → _arr s !! k = Some c →
        (∀ j, i ≤ j → j < k → _arr s !! j ≠ Some c) →
        find_loop checks s c i todo = Returns k) ∧
  ((∀ j, i ≤ j → j < size s → _arr s !! j ≠ Some c) →
   find_loop checks s c i todo = Returns (size s)).
Proof.
  revert i. induction todo as [|todo IH]; intros i Hi.
  - split; [intros k ? ?; lia | done].
  - destruct (well_typed_lookup s i Hs) as [x Hx]; [lia|].
    destruct (IH (S i)) as [IHfound IHabsent]; [lia|].
    simpl. rewrite (subscript_in_range checks s i x) by (done || lia).
    monad_simpl. split.
    + intros k Hik Hk Hkc Hmin.
      destruct (Z.eqb_spec x c) as [->|Hne].
      * destruct (decide (k = i)) as [->|Hki]; [done|].
        exfalso. apply (Hmin i); [lia | lia | done].
      * apply IHfound; [|done|done|].
        -- destruct (decide (k = i)) as [->|]; [congruence | lia].
        -- intros j ? ?. apply Hmin; lia.
    + intros Habsent.
      destruct (Z.eqb_spec x c) as [->|Hne].
      * exfalso. apply (Habsent i); [lia | lia | done].
      * apply IHabsent. intros j ? ?. apply Habsent; lia.
Qed.

(** [contains] and [find] run the same loop: [contains(c)] is
    [find(c) < size]. *)
Lemma contains_loop_find_loop (todo i : nat) :
  i + todo = size s →
  ∃ k, find_loop checks s c i todo = Returns k ∧ i ≤ k ≤ size s ∧
       contains_loop checks s c i todo = Returns (k <? size s).
Proof.
  revert i. induction todo as [|todo IH]; intros i Hi; simpl.
  - exists (size s). monad_simpl. rewrite Nat.ltb_irrefl. repeat split; (done || lia).
  - destruct (well_typed_lookup s i Hs) as [x Hx]; [lia|].
    rewrite (subscript_in_range checks s i x) by (done || lia). monad_simpl.
    destruct (Z.eqb_spec x c) as [->|Hne].
    + exists i. rewrite (proj2 (Nat.ltb_lt i (size s))) by lia.
      repeat split; (done || lia).
    + destruct (IH (S i)) as (k & Hk & Hrange & Hcont); [lia|].
      exists k. repeat split; (done || lia).
Qed.

Lemma contains_find :
  ∃ k, find checks s c = Returns k ∧ k ≤ size s ∧
       contains checks s c = Returns (k <? size s).
Proof.
  destruct (contains_loop_find_loop (size s) 0) as (k & Hk & Hrange & Hcont); [done|].
  exists k. repeat split; (done || lia).
Qed.

End Scan.

(** C9: [find(c)] returns the smallest index [i < N] whose character is
    [c] when there is one, and [N] when [c] does not occur among the [N]
    content characters. *)
Theorem find_spec (checks : bool) (s : String) (c : Z) :
  well_typed s →
  (∀ i, i < size s → _arr s !! i = Some c →
        (∀ j, j < i → _arr s !! j ≠ Some c) →
        find checks s c = Returns i) ∧
  ((∀ i, i < size s → _arr s !! i ≠ Some c) →
   find checks s c = Returns (size s)).
Proof.
  intros Hs. destruct (find_loop_spec checks s c Hs (size s) 0) as [Hfound Habsent]; [done|].
  split.
  - intros i Hi Hc Hmin. apply Hfound; [lia | done | done |].
    intros j _ Hj. by apply Hmin.
  - intros Hno. apply Habsent. intros j _ Hj. by apply Hno.
Qed.

Lemma find_spec_witness :
  find true (mkString 4 [97; 98; 99; 98; 0]%Z) 98 = Returns 1 ∧
  find true (mkString 4 [97; 98; 99; 98; 0]%Z) 0 = Returns 4.
Proof.
  destruct (find_spec true (mkString 4 [97; 98; 99; 98; 0]%Z) 98) as [Hfound _];
    [reflexivity|].
  destruct (find_spec true (mkString 4 [97; 98; 99; 98; 0]%Z) 0) as [_ Habsent];
    [reflexivity|].
  split.
  - apply Hfound; [simpl; lia | reflexivity |].
    intros [|j] Hj; [simpl; congruence | lia].
  - apply Habsent. intros [|[|[|[|i]]]] Hi; simpl in *; (congruence || lia).
Defined.

(** ** Equality *)

Lemma equal_true (l1 l2 : list Z) :
  length l1 = length l2 → equal l1 l2 = true ↔ l1 = l2.
Proof.
  revert l2. induction l1 as [|x l1 IH]; intros [|y l2] Hlen; simpl in *; try done.
  rewrite andb_true_iff, Z.eqb_eq, IH by lia. split.
  - by intros [-> ->].
  - intros [= -> ->]. done.
Qed.

(** Two buffers of [N + 1] slots that both end with the terminator are the
    same exactly when their first [N] slots agree. *)
Lemma terminated_arr_eq (a b : String) :
  well_typed a → well_typed b → terminated a → terminated b →
  size a = size b →
  _arr a = _arr b ↔ ∀ i, i < size a → _arr a !! i = _arr b !! i.
Proof.
  unfold well_typed, terminated. intros Ha Hb Ta Tb HN. split.
  - by intros ->.
  - intros Hc. apply list_eq. intros i.
    destruct (decide (i < size a)) as [Hi|Hi]; [by apply Hc|].
    destruct (decide (i = size a)) as [->|Hne].
    + rewrite Ta. rewrite HN. by rewrite Tb.
    + rewrite !(proj2 (lookup_ge_None _ _)); [done | lia | lia].
Qed.

(** Two buffers of [N + 1] slots are the same exactly when all their slots
    [0 .. N] agree. *)
Lemma arr_eq_slots (a b : String) :
  well_typed a → well_typed b → size a = size b →
  _arr a = _arr b ↔ ∀ i, i ≤ size a → _arr a !! i = _arr b !! i.
Proof.
  unfold well_typed. intros Ha Hb HN. split.
  - by intros ->.
  - intros Hc. apply list_eq. intros i.
    destruct (decide (i ≤ size a)) as [Hi|Hi]; [by apply Hc|].
    rewrite !(proj2 (lookup_ge_None _ _)); [done | lia | lia].
Qed.

(** C4 (as amended): [streq(a, b)] (and [a == b]) is [true] exactly when
    [N = M] and the characters at all the positions [0 .. N], slot [N]
    included, agree; for two instances whose slot [N] holds the terminator
    that is [N = M] and agreement at the positions [0 .. N-1]; when [N]
    differs from [M] it is [false] whatever the buffers hold. *)
Theorem streq_spec (a b : String) :
  (size a ≠ size b → streq a b = false) ∧
  (well_typed a → well_typed b → terminated a → terminated b →
   streq a b = true ↔
   size a = size b ∧ ∀ i, i < size a → _arr a !! i = _arr b !! i) ∧
  eq_op a b = streq a b ∧
  (well_typed a → well_typed b →
   streq a b = true ↔
   size a = size b ∧ ∀ i, i ≤ size a → _arr a !! i = _arr b !! i).
Proof.
  unfold eq_op, streq. split; [|split; [|split; [done|]]].
  - intros HN. apply Nat.eqb_neq in HN. by rewrite HN.
  - intros Ha Hb Ta Tb. split.
    + destruct (Nat.eqb_spec (size a) (size b)) as [HN|HN]; simpl; [|done].
      intros Heq. split; [done|].
      apply terminated_arr_eq; try done.
      apply equal_true; [|done]. unfold well_typed in *. lia.
    + intros [HN Hc]. apply Nat.eqb_eq in HN as HN'. rewrite HN'. simpl.
      apply equal_true; [unfold well_typed in *; lia|].
      by apply terminated_arr_eq.
  - intros Ha Hb. split.
    + destruct (Nat.eqb_spec (size a) (size b)) as [HN|HN]; simpl; [|done].
      intros Heq. split; [done|].
      apply arr_eq_slots; try done.
      apply equal_true; [|done]. unfold well_typed in *. lia.
    + intros [HN Hc]. apply Nat.eqb_eq in HN as HN'. rewrite HN'. simpl.
      apply equal_true; [unfold well_typed in *; lia|].
      by apply arr_eq_slots.
Qed.

Lemma streq_spec_witness :
  streq (mkString 3 [97; 98; 99; 0]%Z) (mkString 4 [97; 98; 99; 100; 0]%Z) = false ∧
  streq (mkString 2 [97; 98; 0]%Z) (mkString 2 [97; 98; 0]%Z) = true ∧
  streq (mkString 1 [97; 98]%Z) (mkString 1 [97; 98]%Z) = true.
Proof.
  destruct (streq_spec (mkString 3 [97; 98; 99; 0]%Z) (mkString 4 [97; 98; 99; 100; 0]%Z))
    as (Hne & _ & _).
  destruct (streq_spec (mkString 2 [97; 98; 0]%Z) (mkString 2 [97; 98; 0]%Z))
    as (_ & Hiff & _ & _).
  destruct (streq_spec (mkString 1 [97; 98]%Z) (mkString 1 [97; 98]%Z))
    as (_ & _ & _ & Hall).
  split; [|split].
  - apply Hne. simpl. lia.
  - apply Hiff; [reflexivity | reflexivity | reflexivity | reflexivity |].
    split; [reflexivity | intros i _; reflexivity].
  - apply Hall; [reflexivity | reflexivity |].
    split; [reflexivity | intros i _; reflexivity].
Defined.

(** C4 as stated fails for instances that do not satisfy I1: built from raw
    buffers with the checks compiled out, two [String<1>] agree at position
    [0] and differ in slot [1], and [streq] returns [false]. *)
Lemma streq_compares_slot_N :
  ∃ a b, String_from_array false 1 [chr "a"; chr "b"] = Returns a ∧
         String_from_array false 1 [chr "a"; NUL] = Returns b ∧
         size a = size b ∧
         (∀ i, i < size a → _arr a !! i = _arr b !! i) ∧
         streq a b = false ∧ eq_op a b = false.
Proof.
  eexists _, _. split; [reflexivity|]. split; [reflexivity|]. split; [reflexivity|].
  split; [|split; reflexivity].
  intros [|i] Hi; [reflexivity | simpl in Hi; lia].
Qed.

(** ** Substrings *)

Lemma substring_loop_spec (checks : bool) (s : String) (Begin todo i : nat) (r : list Z) :
  well_typed s → Begin + i + todo ≤ size s → i + todo ≤ length r →
  substring_loop checks s Begin i todo r =
  Returns (take i r ++ take todo (drop (Begin + i) (_arr s)) ++ drop (i + todo) r).
Proof.
  intros Hs. revert i r. induction todo as [|todo IH]; intros i r Hi Hr; simpl.
  - by rewrite Nat.add_0_r, take_drop.
  - destruct (well_typed_lookup s (Begin + i) Hs) as [c Hc]; [lia|].
    rewrite (subscript_in_range checks s (Begin + i) c) by (done || lia).
    monad_simpl. rewrite IH by (rewrite ?length_insert; lia).
    rewrite (take_S_r _ i c) by (apply list_lookup_insert_eq; lia).
    rewrite take_insert_ge by lia.
    rewrite drop_insert_lt by lia.
    rewrite (drop_S _ c (Begin + i)) by done. simpl.
    replace (Begin + S i) with (S (Begin + i)) by lia.
    replace (i + S todo) with (S (i + todo)) by lia.
    by rewrite <- app_assoc.
Qed.

(** The value of a well-formed call: the slice and one terminator. *)
Lemma substring_value (checks : bool) (Begin End : nat) (s : String) :
  well_typed s → Begin ≤ End → End ≤ size s →
  substring checks Begin End s =
  well_formed (Returns (mkString (End - Begin)
                          (take (End - Begin) (drop Begin (_arr s)) ++ [NUL]))).
Proof.
  intros Hs HBE HEN. unfold substring.
  rewrite (proj2 (Nat.leb_le End (size s))), (proj2 (Nat.leb_le Begin End)) by done.
  simpl. f_equal.
  rewrite substring_loop_spec by (rewrite ?length_replicate; lia || done).
  monad_simpl. do 2 f_equal.
  rewrite Nat.add_0_r, drop_replicate.
  replace (End - Begin + 1 - (End - Begin)) with 1 by lia. simpl.
  assert (length (take (End - Begin) (drop Begin (_arr s))) = End - Begin) as Hlen.
  { unfold well_typed in Hs. rewrite length_take, length_drop. lia. }
  rewrite insert_app_r_alt by lia. by rewrite Hlen, Nat.sub_diag.
Qed.

(** Bounds that do not satisfy the [requires] clause. *)
Lemma substring_rejected (checks : bool) (Begin End : nat) (s : String) :
  ¬ (Begin ≤ End ∧ End ≤ size s) → substring checks Begin End s = ill_formed.
Proof.
  intros Hbad. unfold substring.
  destruct (Nat.leb_spec End (size s)); destruct (Nat.leb_spec Begin End);
    simpl; try done.
  exfalso. apply Hbad. lia.
Qed.

(** C7 (as amended): for [0 <= Begin <= End <= N],
    [substring<Begin, End>(s)] is a [String<End - Begin>] whose character
    at each position [i] is the character of [s] at [Begin + i], followed
    by the terminator; other bounds do not satisfy the [requires] clause,
    so the call does not compile; [substring<0, N>(s)] holds the [N] content
    characters of [s] and the terminator, so it is [s] exactly when slot
    [N] of [s] holds the terminator; [substring<k, k>(s)] is the instance
    of length [0]. *)
Theorem substring_spec (checks : bool) (Begin End : nat) (s : String) :
  well_typed s →
  (Begin ≤ End → End ≤ size s →
   ∃ r, substring checks Begin End s = well_formed (Returns r) ∧
        size r = End - Begin ∧ well_typed r ∧
        (∀ i, i < End - Begin → _arr r !! i = _arr s !! (Begin + i)) ∧
        _arr r !! (End - Begin) = Some NUL) ∧
  (¬ (Begin ≤ End ∧ End ≤ size s) → substring checks Begin End s = ill_formed) ∧
  substring checks 0 (size s) s
  = well_formed (Returns (mkString (size s) (content s ++ [NUL]))) ∧
  (substring checks 0 (size s) s = well_formed (Returns s) ↔ terminated s) ∧
  (∀ k, k ≤ size s →
        substring checks k k s = well_formed (Returns (mkString 0 [NUL]))).
Proof.
  intros Hs.
  assert (substring checks 0 (size s) s
          = well_formed (Returns (mkString (size s) (content s ++ [NUL])))) as Hfull.
  { rewrite substring_value by (done || lia). by rewrite Nat.sub_0_r, drop_0. }
  split; [|split; [|split; [done|split]]].
  - intros HBE HEN. eexists. split; [by apply substring_value|]. simpl.
    assert (length (take (End - Begin) (drop Begin (_arr s))) = End - Begin) as Hlen.
    { unfold well_typed in Hs. rewrite length_take, length_drop. lia. }
    split; [done|]. split; [|split].
    + unfold well_typed. simpl. rewrite length_app, Hlen. simpl. lia.
    + intros i Hi. rewrite lookup_app_l by lia.
      rewrite lookup_take_lt by done. by rewrite lookup_drop.
    + rewrite lookup_app_r by lia. by rewrite Hlen, Nat.sub_diag.
  - apply substring_rejected.
  - rewrite Hfull. split.
    + intros [= Heq]. apply (f_equal _arr) in Heq. simpl in Heq.
      unfold terminated. rewrite <- Heq.
      rewrite lookup_app_r by (rewrite length_content; done || lia).
      by rewrite length_content, Nat.sub_diag.
    + intros Ht. do 2 f_equal. apply String_eq; simpl; [done|].
      unfold well_typed, terminated, content in *.
      rewrite <- (take_drop (size s) (_arr s)) at 2. f_equal.
      rewrite (drop_S _ NUL (size s)) by done.
      by rewrite drop_ge by lia.
  - intros k Hk. rewrite substring_value by (done || lia).
    by rewrite Nat.sub_diag.
Qed.

Lemma substring_spec_witness :
  substring true 1 3 (mkString 4 [97; 98; 99; 100; 0]%Z)
  = well_formed (Returns (mkString 2 [98; 99; 0]%Z)) ∧
  substring true 3 1 (mkString 4 [97; 98; 99; 100; 0]%Z) = ill_formed ∧
  substring true 0 4 (mkString 4 [97; 98; 99; 100; 0]%Z)
  = well_formed (Returns (mkString 4 [97; 98; 99; 100; 0]%Z)).
Proof.
  split; [reflexivity|].
  destruct (substring_spec true 3 1 (mkString 4 [97; 98; 99; 100; 0]%Z))
    as (_ & Hbad & _ & _ & _); [reflexivity|].
  destruct (substring_spec true 0 4 (mkString 4 [97; 98; 99; 100; 0]%Z))
    as (_ & _ & _ & Hall & _); [reflexivity|].
  split.
  - apply Hbad. simpl. lia.
  - apply Hall. reflexivity.
Defined.

(** C7 as stated fails for an instance that does not satisfy I1: built from
    a raw buffer with the checks compiled out, [s] keeps ['b'] in slot [1],
    and [substring<0, 1>(s)] has the terminator there. *)
Lemma substring_full_resets_slot_N :
  ∃ s, String_from_array false 1 [chr "a"; chr "b"] = Returns s ∧
       substring false 0 (size s) s
       = well_formed (Returns (mkString 1 [chr "a"; NUL])) ∧
       substring false 0 (size s) s ≠ well_formed (Returns s).
Proof.
  eexists. split; [reflexivity|]. split; [reflexivity|]. by intros [=].
Qed.

(** ** String to integer *)

Local Open Scope Z_scope.

Lemma wrap_pos (w : N) : 0 < 2 ^ Z.of_N w.
Proof. apply Z.pow_pos_nonneg; lia. Qed.

Lemma wrap_range (w : N) (z : Z) : 0 <= wrap w z < 2 ^ Z.of_N w.
Proof. apply Z.mod_pos_bound, wrap_pos. Qed.

Lemma wrap_idemp (w : N) (z : Z) : wrap w (wrap w z) = wrap w z.
Proof. unfold wrap. apply Z.mod_mod. pose proof (wrap_pos w). lia. Qed.

(** One iteration of the loop of [atoi], without the intermediate
    reductions. *)
Lemma wrap_step (w : N) (r c : Z) :
  wrap w (wrap w (r * 10) + wrap w (c - chr "0")) = wrap w (r * 10 + (c - chr "0")).
Proof. unfold wrap. by rewrite <- Z.add_mod by (pose proof (wrap_pos w); lia). Qed.

Lemma wrap_horner (w : N) (a k b : Z) :
  wrap w (wrap w a * k + b) = wrap w (a * k + b).
Proof.
  unfold wrap. pose proof (wrap_pos w).
  rewrite Z.add_mod, Z.mul_mod_idemp_l, <- Z.add_mod by lia. done.
Qed.

Lemma atoi_loop_spec (w : N) (s : String) (todo i : nat) (r : Z) :
  well_typed s → (i + todo ≤ size s)%nat → wrap w r = r →
  atoi_loop w s i todo r =
  Returns (wrap w (r * 10 ^ Z.of_nat todo + weighted_sum (take todo (drop i (_arr s))))).
Proof.
  intros Hs. revert i r. induction todo as [|todo IH]; intros i r Hi Hr.
  - simpl. monad_simpl. by rewrite Z.mul_1_r, Z.add_0_r, Hr.
  - destruct (well_typed_lookup s i Hs) as [c Hc]; [lia|].
    cbn [atoi_loop]. rewrite (array_at_lookup _ _ _ Hc). monad_simpl.
    rewrite wrap_step, IH by (lia || apply wrap_idemp).
    rewrite (drop_S _ c i) by done. cbn [take weighted_sum].
    assert (length (take todo (drop (S i) (_arr s))) = todo) as ->.
    { unfold well_typed in Hs. rewrite length_take, length_drop. lia. }
    rewrite wrap_horner. f_equal. apply (f_equal (wrap w)).
    rewrite Nat2Z.inj_succ, Z.pow_succ_r by lia. ring.
Qed.

(** [atoi()] always returns, and what it returns. *)
Lemma atoi_value (w : N) (s : String) :
  well_typed s → atoi w s = Returns (wrap w (weighted_sum (content s))).
Proof.
  intros Hs. unfold atoi. rewrite atoi_loop_spec by (done || lia).
  by rewrite drop_0, Z.mul_0_l, Z.add_0_l.
Qed.

(** C10: whatever the buffer holds, [atoi()] returns, and its result is the
    sum of [(c_i - 48) * 10 ^ (N - 1 - i)] over the [N] content characters
    reduced modulo [2 ^ w]: a value of [std::size_t], also when a character
    is not a digit. *)
Theorem atoi_spec (w : N) (s : String) :
  well_typed s →
  chr "0" = 48 ∧
  ∃ r, atoi w s = Returns r ∧
       r = weighted_sum (content s) mod 2 ^ Z.of_N w ∧
       0 <= r < 2 ^ Z.of_N w.
Proof.
  intros Hs. split; [done|]. eexists. split; [by apply atoi_value|].
  split; [done | apply wrap_range].
Qed.

Lemma atoi_spec_witness :
  atoi 64 (mkString 2 [chr "4"; chr "/"; NUL]) = Returns 39 ∧
  ∃ r, atoi 64 (mkString 1 [chr "/"; NUL]) = Returns r ∧
       r = weighted_sum [chr "/"] mod 2 ^ 64 ∧ 0 <= r < 2 ^ 64.
Proof.
  split; [reflexivity|].
  destruct (atoi_spec 64 (mkString 1 [chr "/"; NUL])) as [_ Hr]; [reflexivity|].
  exact Hr.
Defined.

Local Close Scope Z_scope.

(** ** Integer to string *)

Lemma log10_0 : log10 0%N = 0%N.
Proof. reflexivity. Qed.

Lemma log10_pos (x : N) : x ≠ 0%N → log10 x = (1 + log10 (x / 10))%N.
Proof. intros Hx. rewrite log10_equation_1. by destruct (N.eq_dec x 0%N). Qed.

Lemma digits_0 : digits 0%N = [].
Proof. reflexivity. Qed.

Lemma digits_pos (x : N) :
  x ≠ 0%N → digits x = digits (x / 10)%N ++ [(Z.of_N (x mod 10) + chr "0")%Z].
Proof. intros Hx. rewrite digits_equation_1. by destruct (N.eq_dec x 0%N). Qed.

Lemma array_itoa_loop_0 (i : N) (arr : list Z) : array_itoa_loop 0%N i arr = arr.
Proof. by rewrite array_itoa_loop_equation_1. Qed.

Lemma array_itoa_loop_pos (n i : N) (arr : list Z) :
  n ≠ 0%N →
  array_itoa_loop n i arr =
  array_itoa_loop (n / 10)%N (uchar_dec i)
    (<[N.to_nat i := (Z.of_N (n mod 10) + chr "0")%Z]> arr).
Proof. intros Hn. rewrite array_itoa_loop_equation_1. by destruct (N.eq_dec n 0%N). Qed.

(** Induction along the division by ten. *)
Lemma div10_ind (P : N → Prop) :
  P 0%N → (∀ x, x ≠ 0%N → P (x / 10)%N → P x) → ∀ x, P x.
Proof.
  intros H0 Hstep x. induction x as [x IH] using (well_founded_induction N.lt_wf_0).
  destruct (N.eq_dec x 0%N) as [->|Hx]; [done|].
  apply Hstep; [done|]. apply IH. apply N.div_lt; lia.
Qed.

(** [log10<x>] is the number of decimal digits of [x] (none for [0]). *)
Lemma length_digits (x : N) : length (digits x) = N.to_nat (log10 x).
Proof.
  induction x as [|x Hx IH] using div10_ind; [done|].
  rewrite digits_pos, log10_pos, length_app, IH by done. simpl. lia.
Qed.

(** The loop of [array_itoa], started at [i = log10<n>], writes the digits
    of [n] into the slots [1 .. log10<n>] and nothing else; [i] never wraps. *)
Lemma array_itoa_loop_spec (n : N) (arr : list Z) :
  N.to_nat (log10 n) < length arr →
  array_itoa_loop n (log10 n) arr =
  take 1 arr ++ digits n ++ drop (S (N.to_nat (log10 n))) arr.
Proof.
  revert arr. induction n as [|n Hn IH] using div10_ind; intros arr Hlen.
  - rewrite array_itoa_loop_0, log10_0, digits_0. simpl. by rewrite take_drop.
  - rewrite array_itoa_loop_pos, digits_pos by done.
    rewrite log10_pos in * by done.
    set (d := log10 (n / 10)) in *.
    assert (uchar_dec (1 + d)%N = d) as ->.
    { unfold uchar_dec. destruct (N.eq_dec (1 + d)%N 0%N); lia. }
    replace (N.to_nat (1 + d)%N) with (S (N.to_nat d)) in * by lia.
    rewrite IH by (rewrite length_insert; lia).
    rewrite take_insert_ge by lia.
    rewrite (drop_S (<[_ := _]> arr) (Z.of_N (n mod 10) + chr "0")%Z (S (N.to_nat d)))
      by (apply list_lookup_insert_eq; lia).
    rewrite drop_insert_lt by lia.
    by rewrite <- !app_assoc.
Qed.

(** The buffer that [array_itoa<x>()] returns: an untouched (zero) slot [0],
    the digits of [x], the terminator. *)
Lemma array_itoa_spec (x : N) : array_itoa x = NUL :: digits x ++ [NUL].
Proof.
  unfold array_itoa. rewrite insert_replicate.
  rewrite array_itoa_loop_spec by (rewrite length_replicate; lia).
  rewrite drop_replicate.
  replace (N.to_nat (log10 x) + 2 - S (N.to_nat (log10 x))) with 1 by lia.
  by replace (N.to_nat (log10 x) + 2) with (S (S (N.to_nat (log10 x)))) by lia.
Qed.

(** [itoa<x>] is always constructed; it is a [String<log10<x> + 1>]. *)
Lemma itoa_value (checks : bool) (x : N) :
  itoa checks x =
  Returns (mkString (N.to_nat (log10 x) + 1) (NUL :: digits x ++ [NUL])).
Proof.
  unfold itoa, String_from_array. rewrite array_itoa_spec. simpl.
  assert ((NUL :: digits x ++ [NUL]) !! (N.to_nat (log10 x) + 1) = Some NUL) as Hterm.
  { rewrite Nat.add_1_r. simpl. rewrite lookup_app_r by (rewrite length_digits; lia).
    by rewrite length_digits, Nat.sub_diag. }
  rewrite (array_at_lookup _ _ _ Hterm). monad_simpl. by destruct checks.
Qed.

(** C1: [itoa<42>] is a [String<3>] whose buffer is a zero character, ['4'],
    ['2'] and the terminator, and [itoa<0>] is a [String<1>] whose only
    content character is zero: [log10<x>] counts the digits of [x] instead
    of being one less, so slot [0] is never written, and the loop of
    [array_itoa] writes nothing at all for [0]. The representation the
    specification asks for, ["42"] of length [2] and ["0"], is not what the
    header computes. *)
Theorem itoa_42_and_0 (checks : bool) :
  log10 42 = 2%N ∧
  itoa checks 42 = Returns (mkString 3 [NUL; chr "4"; chr "2"; NUL]) ∧
  canonical_decimal 42 = [chr "4"; chr "2"] ∧
  log10 0 = 0%N ∧
  itoa checks 0 = Returns (mkString 1 [NUL; NUL]) ∧
  canonical_decimal 0 = [chr "0"].
Proof. destruct checks; repeat split; reflexivity. Qed.

(** For every [x] the content of [itoa<x>] is a zero character followed by
    the digits of [x], one character more than the digits. *)
Lemma itoa_content (checks : bool) (x : N) :
  ∃ s, itoa checks x = Returns s ∧
       size s = S (length (digits x)) ∧ content s = NUL :: digits x.
Proof.
  eexists. split; [apply itoa_value|]. unfold content. simpl.
  rewrite length_digits, Nat.add_1_r. split; [done|]. simpl. f_equal.
  apply take_app_length'. by rewrite length_digits.
Qed.

Local Open Scope Z_scope.

Lemma weighted_sum_snoc (cs : list Z) (c : Z) :
  weighted_sum (cs ++ [c]) = weighted_sum cs * 10 + (c - chr "0").
Proof.
  induction cs as [|a cs IH]; simpl; [lia|].
  rewrite IH, length_app. simpl length. rewrite Nat2Z.inj_add, Z.pow_add_r by lia.
  change (10 ^ Z.of_nat 1) with 10. ring.
Qed.

(** Read as a decimal number, the digits of [x] give [x] back. *)
Lemma weighted_sum_digits (x : N) : weighted_sum (digits x) = Z.of_N x.
Proof.
  induction x as [|x Hx IH] using div10_ind; [done|].
  rewrite digits_pos, weighted_sum_snoc, IH by done.
  pose proof (N.div_mod x 10) as Hdm.
  revert Hdm. generalize (x / 10)%N (x mod 10)%N. intros q r Hdm. lia.
Qed.

(** What [atoi()] returns on [itoa<x>]: the leading zero character counts
    as the digit [0 - '0']. *)
Lemma atoi_itoa (checks : bool) (w : N) (x : N) :
  (itoa checks x ≫= atoi w) =
  Returns ((Z.of_N x - 48 * 10 ^ Z.of_N (log10 x)) mod 2 ^ Z.of_N w).
Proof.
  rewrite itoa_value. monad_simpl.
  rewrite atoi_value
    by (unfold well_typed; simpl; rewrite length_app, length_digits; simpl; lia).
  unfold wrap. do 2 f_equal. unfold content. simpl.
  rewrite Nat.add_1_r. simpl take.
  rewrite take_app_length' by (by rewrite length_digits).
  simpl. rewrite weighted_sum_digits, length_digits, N_nat_Z.
  change (NUL - chr "0") with (-48). lia.
Qed.

(** C2: on [itoa<42>], [atoi()] returns [42 - 4800] reduced modulo [2 ^ 64],
    not [42]; on [itoa<0>] it returns [2 ^ 64 - 48], not [0]. *)
Theorem atoi_itoa_42_and_0 (checks : bool) :
  (itoa checks 42 ≫= atoi 64) = Returns (2 ^ 64 - 4758) ∧
  (itoa checks 0 ≫= atoi 64) = Returns (2 ^ 64 - 48).
Proof. destruct checks; split; reflexivity. Qed.

Lemma log10_bound (k : nat) (x : N) :
  (x < 10 ^ N.of_nat k)%N → (log10 x <= N.of_nat k)%N.
Proof.
  revert x. induction k as [|k IH]; intros x Hx.
  - assert (x = 0%N) as -> by (simpl in Hx; lia). by rewrite log10_0.
  - destruct (N.eq_dec x 0%N) as [->|Hnz]; [rewrite log10_0; lia|].
    rewrite log10_pos by done.
    enough (log10 (x / 10) <= N.of_nat k)%N by lia.
    apply IH. apply N.Div0.div_lt_upper_bound.
    rewrite Nat2N.inj_succ, N.pow_succ_r' in Hx. done.
Qed.

(** [log10<x>] fits the [unsigned char] it is declared with, for every
    unsigned type of up to 128 bits: its initialiser never narrows. *)
Lemma log10_fits_unsigned_char (x : N) : (x < 2 ^ 128)%N → (log10 x < 256)%N.
Proof.
  intros Hx. enough (log10 x <= 39)%N by lia.
  apply (log10_bound 39). eapply N.lt_trans; [done|]. by vm_compute.
Qed.

(** With a [std::size_t] of 64 bits the round trip fails for every value of
    a 64-bit unsigned type, not only for the two above. *)
Lemma atoi_itoa_never (checks : bool) (x : N) :
  (x < 2 ^ 64)%N → (itoa checks x ≫= atoi 64) ≠ Returns (Z.of_N x).
Proof.
  intros Hx. rewrite atoi_itoa. change (Z.of_N 64) with 64. intros [= Heq].
  assert (log10 x <= 20)%N as Hd.
  { apply (log10_bound 20). eapply N.lt_trans; [done|]. by vm_compute. }
  assert (Z.of_N x mod 2 ^ 64 = Z.of_N x) as Hmod.
  { apply Z.mod_small. split; [lia|]. change (2 ^ 64) with (Z.of_N (2 ^ 64)). lia. }
  rewrite <- Hmod in Heq at 2.
  assert ((48 * 10 ^ Z.of_N (log10 x)) mod 2 ^ 64 = 0) as Hdiv.
  { revert Heq. generalize (48 * 10 ^ Z.of_N (log10 x)) (Z.of_N x). intros K y Heq.
    replace K with (y - (y - K)) by ring.
    rewrite Zminus_mod, Heq, Z.sub_diag. done. }
  revert Hd Hdiv. generalize (log10 x). intros d Hd.
  assert (N.to_nat d < 21)%nat as Hlt by lia.
  rewrite <- (N2Nat.id d). generalize dependent (N.to_nat d). clear. intros n Hn.
  do 21 (destruct n as [|n]; [by vm_compute|]). lia.
Qed.

Local Close Scope Z_scope.

(** ** Invariant I1 *)

Lemma copy_n_all (str : list Z) (n : nat) :
  length str = n → copy_n str n (replicate n NUL) 0 = str.
Proof.
  intros Hn. rewrite copy_n_spec by (rewrite ?length_replicate; lia).
  rewrite take_0, Nat.add_0_l, drop_replicate, Nat.sub_diag. simpl.
  rewrite app_nil_r. apply take_ge. lia.
Qed.

Lemma String_from_str_value (checks : bool) (N : nat) (str : list Z) :
  length str = S N → (checks = false ∨ str !! N = Some NUL) →
  String_from_str checks N str = Returns (mkString N str).
Proof.
  intros Hlen Hterm. unfold String_from_str, arr_from_str, FS_ASSERT.
  rewrite copy_n_all by lia.
  destruct checks; [|done]. destruct Hterm as [|Hterm]; [done|].
  by rewrite (array_at_lookup _ _ _ Hterm).
Qed.

Lemma String_from_array_value (checks : bool) (N : nat) (buf : list Z) :
  (checks = false ∨ buf !! N = Some NUL) →
  String_from_array checks N buf = Returns (mkString N buf).
Proof.
  intros Hterm. unfold String_from_array, FS_ASSERT. simpl.
  destruct checks; [|done]. destruct Hterm as [|Hterm]; [done|].
  by rewrite (array_at_lookup _ _ _ Hterm).
Qed.

(** With the checks compiled in, the constructor from a raw buffer returns
    only when the last slot is the terminator. *)
Lemma String_from_array_checked (N : nat) (buf : list Z) (s : String) :
  String_from_array true N buf = Returns s → s = mkString N buf ∧ terminated s.
Proof.
  unfold String_from_array, FS_ASSERT, array_at, terminated. simpl.
  destruct (buf !! N) as [c|] eqn:Hc; monad_simpl; [|done].
  destruct (Z.eqb_spec c NUL) as [->|Hne]; simpl; [|done].
  by intros [= <-].
Qed.

Lemma length_list_ascii_of_string (lit : string) :
  length (list_ascii_of_string lit) = String.length lit.
Proof. induction lit as [|a lit IH]; simpl; congruence. Qed.

Lemma plus_terminated (a b : String) : terminated (plus a b).
Proof.
  unfold terminated, plus. simpl. apply list_lookup_insert_eq.
  rewrite !length_copy_n, length_replicate. lia.
Qed.

(** C3 (as amended): every construction path and every derived-string
    operation yields an instance whose slot [N] holds the terminator:
    default construction; construction from a literal; construction from a
    raw buffer whose slot [N] is zero, in either build, and from any raw
    buffer that the constructor accepts when the checks are compiled in;
    construction from one character; [operator+] (also with a character
    operand); [substring]; [itoa]. The operation that changes an existing
    instance is copy (or move) assignment, which copies the whole buffer:
    afterwards slot [N] holds the terminator exactly when it does in the
    instance assigned from. No other function of the header takes an
    instance other than by [const] reference. *)
Theorem terminator_invariant (checks : bool) :
  (∀ N, terminated (String_default N)) ∧
  (∀ N str, length str = S N → str !! N = Some NUL →
     ∃ s, String_from_str checks N str = Returns s ∧ size s = N ∧ terminated s) ∧
  (∀ signed_char lit,
     ∃ s, String_of_literal checks (literal signed_char lit) = well_formed (Returns s) ∧
          size s = String.length lit ∧ terminated s) ∧
  (∀ N buf, length buf = S N → buf !! N = Some NUL →
     ∃ s, String_from_array checks N buf = Returns s ∧ size s = N ∧ terminated s) ∧
  (∀ N buf s, String_from_array true N buf = Returns s → terminated s) ∧
  (∀ c, size (String_from_char c) = 1 ∧ terminated (String_from_char c)) ∧
  (∀ a b, terminated (plus a b)) ∧
  (∀ a c, terminated (plus_char_r a c) ∧ terminated (plus_char_l c a)) ∧
  (∀ Begin End s r, well_typed s →
     substring checks Begin End s = well_formed (Returns r) → terminated r) ∧
  (∀ x, ∃ s, itoa checks x = Returns s ∧ terminated s) ∧
  (∀ a b, size a = size b → (terminated (assign a b) ↔ terminated b)).
Proof.
  repeat match goal with |- _ ∧ _ => split end.
  - intros N. unfold terminated, String_default. simpl.
    apply lookup_replicate_2. lia.
  - intros N str Hlen Hterm. eexists.
    split; [apply String_from_str_value; auto|]. done.
  - intros sg lit.
    assert (length (literal sg lit) = S (String.length lit)) as Hlen.
    { unfold literal. rewrite length_app, length_map, length_list_ascii_of_string.
      simpl. lia. }
    assert (literal sg lit !! String.length lit = Some NUL) as Hterm.
    { unfold literal. rewrite lookup_app_r
        by (rewrite length_map, length_list_ascii_of_string; lia).
      by rewrite length_map, length_list_ascii_of_string, Nat.sub_diag. }
    eexists. unfold String_of_literal. rewrite Hlen. simpl. rewrite Nat.sub_0_r.
    split; [f_equal; apply String_from_str_value; auto|]. done.
  - intros N buf Hlen Hterm. eexists.
    split; [apply String_from_array_value; auto|]. done.
  - intros N buf s Hs. by apply String_from_array_checked in Hs as [_ Ht].
  - done.
  - apply plus_terminated.
  - intros a c. split; apply plus_terminated.
  - intros Begin End s r Hs Hr.
    destruct (decide (Begin ≤ End ∧ End ≤ size s)) as [[HBE HEN]|Hbad];
      [|by rewrite substring_rejected in Hr].
    rewrite substring_value in Hr by done.
    injection Hr as <-. unfold terminated. simpl.
    assert (length (take (End - Begin) (drop Begin (_arr s))) = End - Begin) as Hlen.
    { unfold well_typed in Hs. rewrite length_take, length_drop. lia. }
    rewrite lookup_app_r by lia. by rewrite Hlen, Nat.sub_diag.
  - intros x. eexists. split; [apply itoa_value|]. unfold terminated. simpl.
    rewrite Nat.add_1_r. simpl.
    rewrite lookup_app_r by (rewrite length_digits; lia).
    by rewrite length_digits, Nat.sub_diag.
  - intros a b HN. unfold terminated, assign. simpl. by rewrite HN.
Qed.

Lemma terminator_invariant_witness :
  (∃ s, String_from_array false 2 [97; 98; 0]%Z = Returns s ∧ size s = 2 ∧ terminated s) ∧
  (∃ s, String_from_str true 2 [97; 98; 0]%Z = Returns s ∧ size s = 2 ∧ terminated s) ∧
  terminated (mkString 1 [98; 0]%Z) ∧
  terminated (assign (mkString 1 [97; 0]%Z) (mkString 1 [98; 0]%Z)).
Proof.
  destruct (terminator_invariant false) as (_ & _ & _ & Hbuf & _).
  destruct (terminator_invariant true)
    as (_ & Hstr & _ & _ & Hchk & _ & _ & _ & Hsub & _ & Hassign).
  split; [|split; [|split]].
  - apply Hbuf; reflexivity.
  - apply Hstr; reflexivity.
  - apply (Hsub 1 2 (mkString 2 [97; 98; 0]%Z)); reflexivity.
  - apply Hassign; reflexivity.
Defined.

(** C3 as stated fails for the raw-buffer constructor when the checks are
    compiled out: the buffer is stored as it is. Assigning that instance
    to an existing [String<1>] then changes the terminator slot of the
    latter. *)
Lemma raw_buffer_unchecked_not_terminated :
  ∃ s, String_from_array false 1 [chr "a"; chr "b"] = Returns s ∧
       size s = 1 ∧ ¬ terminated s ∧
       terminated (String_from_char (chr "c")) ∧
       ¬ terminated (assign (String_from_char (chr "c")) s).
Proof.
  eexists. split; [reflexivity|]. split; [reflexivity|].
  split; [by intros [=]|]. split; [reflexivity | by intros [=]].
Qed.

(** * Further properties *)

(** ** Searching, by content *)

Lemma first_index_le (c : Z) (cs : list Z) : first_index c cs ≤ length cs.
Proof. induction cs as [|x cs IH]; simpl; [done|]. destruct (x =? c)%Z; lia. Qed.

Lemma first_index_hit (c : Z) (cs : list Z) :
  first_index c cs < length cs → cs !! first_index c cs = Some c.
Proof.
  induction cs as [|x cs IH]; simpl; [lia|].
  destruct (Z.eqb_spec x c) as [->|Hne]; [done|]. intros H. apply IH. lia.
Qed.

Lemma first_index_before (c : Z) (cs : list Z) (j : nat) :
  j < first_index c cs → cs !! j ≠ Some c.
Proof.
  revert j. induction cs as [|x cs IH]; simpl; intros j Hj; [lia|].
  destruct (Z.eqb_spec x c) as [->|Hne]; [lia|].
  destruct j as [|j]; simpl; [congruence|]. apply IH. lia.
Qed.

Lemma first_index_elem (c : Z) (cs : list Z) :
  first_index c cs < length cs ↔ c ∈ cs.
Proof.
  split.
  - intros H. apply list_elem_of_lookup. eexists. by apply first_index_hit.
  - intros [j Hj]%list_elem_of_lookup.
    destruct (decide (first_index c cs < length cs)) as [|Hge]; [done|].
    exfalso. apply (first_index_before c cs j); [|done].
    apply lookup_lt_Some in Hj. lia.
Qed.

Lemma first_index_app (c : Z) (l1 l2 : list Z) :
  first_index c (l1 ++ l2) =
  if first_index c l1 <? length l1 then first_index c l1
  else length l1 + first_index c l2.
Proof.
  induction l1 as [|x l1 IH]; simpl; [done|].
  destruct (x =? c)%Z; [done|]. rewrite IH.
  change (S (first_index c l1) <? S (length l1)) with (first_index c l1 <? length l1).
  by destruct (first_index c l1 <? length l1).
Qed.

Section ScanContent.

Variables (checks : bool) (s : String) (c : Z).
Hypothesis Hs : well_typed s.

Lemma find_loop_value (todo i : nat) :
  i + todo = size s →
  find_loop checks s c i todo =
  Returns (i + first_index c (take todo (drop i (_arr s)))).
Proof.
  revert i. induction todo as [|todo IH]; intros i Hi; simpl.
  - monad_simpl. f_equal. lia.
  - destruct (well_typed_lookup s i Hs) as [x Hx]; [lia|].
    rewrite (subscript_in_range checks s i x) by (done || lia). monad_simpl.
    rewrite (drop_S _ x i) by done. simpl.
    destruct (x =? c)%Z; [f_equal; lia|].
    rewrite IH by lia. f_equal. lia.
Qed.

(** [find(c)] is the position of the first occurrence of [c] in the
    content. *)
Lemma find_value : find checks s c = Returns (first_index c (content s)).
Proof. unfold find. rewrite find_loop_value by done. by rewrite drop_0. Qed.

Lemma contains_value :
  contains checks s c = Returns (first_index c (content s) <? size s).
Proof.
  destruct (contains_find checks s c Hs) as (k & Hk & _ & Hc).
  rewrite find_value in Hk. by injection Hk as <-.
Qed.

End ScanContent.

(** X1: [contains(c)] returns, in both builds, and it returns [true]
    exactly when [c] is one of the [N] content characters; the slot [N] is
    not looked at. *)
Theorem contains_spec (checks : bool) (s : String) (c : Z) :
  well_typed s →
  ∃ b, contains checks s c = Returns b ∧
       (b = true ↔ ∃ i, i < size s ∧ _arr s !! i = Some c).
Proof.
  intros Hs. eexists. split; [by apply contains_value|].
  rewrite Nat.ltb_lt. rewrite <- (length_content s Hs) at 1.
  rewrite first_index_elem, list_elem_of_lookup. split.
  - intros [i Hi]. exists i. pose proof (lookup_lt_Some _ _ _ Hi) as Hlt.
    rewrite length_content in Hlt by done.
    split; [done|]. by rewrite <- content_lookup.
  - intros (i & Hi & Hc). exists i. by rewrite content_lookup.
Qed.

Lemma contains_spec_witness :
  ∃ b, contains true (mkString 3 [97; 98; 99; 0]%Z) 0 = Returns b ∧
       (b = true ↔ ∃ i, i < 3 ∧ [97; 98; 99; 0]%Z !! i = Some 0%Z).
Proof. apply (contains_spec true (mkString 3 [97; 98; 99; 0]%Z) 0). reflexivity. Defined.

(** X2: what [find(c)] returns can be used directly: it is at most [N];
    when it is below [N], indexing there succeeds and gives [c], and no
    smaller index holds [c]; and [contains(c)] is [find(c) < N]. *)
Theorem find_sound (checks : bool) (s : String) (c : Z) :
  well_typed s →
  ∃ k, find checks s c = Returns k ∧ k ≤ size s ∧
       (k < size s → subscript checks s k = Returns c) ∧
       (∀ j, j < k → subscript checks s j ≠ Returns c) ∧
       contains checks s c = Returns (k <? size s).
Proof.
  intros Hs. pose proof (length_content s Hs) as Hlen.
  exists (first_index c (content s)).
  split; [by apply find_value|]. split; [|split; [|split]].
  - pose proof (first_index_le c (content s)). lia.
  - intros Hk. apply subscript_in_range; [done|].
    rewrite <- content_lookup by done. apply first_index_hit. lia.
  - intros j Hj Hsub.
    pose proof (first_index_le c (content s)) as Hle.
    destruct (well_typed_lookup s j Hs) as [x Hx]; [lia|].
    rewrite (subscript_in_range checks s j x) in Hsub by (done || lia).
    injection Hsub as ->.
    apply (first_index_before c (content s) j Hj).
    rewrite content_lookup by lia. done.
  - by apply contains_value.
Qed.

Lemma find_sound_witness :
  ∃ k, find false (mkString 3 [97; 98; 98; 0]%Z) 98 = Returns k ∧ k ≤ 3 ∧
       (k < 3 → subscript false (mkString 3 [97; 98; 98; 0]%Z) k = Returns 98%Z) ∧
       (∀ j, j < k → subscript false (mkString 3 [97; 98; 98; 0]%Z) j ≠ Returns 98%Z) ∧
       contains false (mkString 3 [97; 98; 98; 0]%Z) 98 = Returns (k <? 3).
Proof. apply (find_sound false (mkString 3 [97; 98; 98; 0]%Z) 98). reflexivity. Defined.

(** X3: searching a concatenation: [(a + b).find(c)] is [a.find(c)] when
    [c] occurs in [a], and [N + b.find(c)] otherwise (so [N + M] when it
    occurs in neither); [(a + b).contains(c)] is the disjunction. *)
Theorem find_plus (checks : bool) (a b : String) (c : Z) :
  well_typed a → well_typed b →
  ∃ ka kb, find checks a c = Returns ka ∧ find checks b c = Returns kb ∧
    find checks (plus a b) c =
      Returns (if ka <? size a then ka else size a + kb) ∧
    contains checks (plus a b) c =
      Returns ((ka <? size a) || (kb <? size b)).
Proof.
  intros Ha Hb. pose proof (plus_well_typed a b Ha Hb) as Hab.
  pose proof (length_content a Ha) as Hla. pose proof (length_content b Hb) as Hlb.
  exists (first_index c (content a)), (first_index c (content b)).
  rewrite !find_value, contains_value, content_plus by done.
  rewrite first_index_app, Hla, size_plus.
  repeat split; [done..|]. f_equal.
  pose proof (first_index_le c (content a)). pose proof (first_index_le c (content b)).
  destruct (Nat.ltb_spec (first_index c (content a)) (size a)); simpl.
  - apply Nat.ltb_lt. lia.
  - destruct (Nat.ltb_spec (first_index c (content b)) (size b)).
    + apply Nat.ltb_lt. lia.
    + apply Nat.ltb_ge. lia.
Qed.

Lemma find_plus_witness :
  ∃ ka kb, find true (mkString 2 [97; 98; 0]%Z) 99 = Returns ka ∧
    find true (mkString 2 [99; 100; 0]%Z) 99 = Returns kb ∧
    find true (plus (mkString 2 [97; 98; 0]%Z) (mkString 2 [99; 100; 0]%Z)) 99 =
      Returns (if ka <? 2 then ka else 2 + kb) ∧
    contains true (plus (mkString 2 [97; 98; 0]%Z) (mkString 2 [99; 100; 0]%Z)) 99 =
      Returns ((ka <? 2) || (kb <? 2)).
Proof.
  apply (find_plus true (mkString 2 [97; 98; 0]%Z) (mkString 2 [99; 100; 0]%Z) 99);
    reflexivity.
Defined.

(** ** Construction *)

(** X4: the constructor from a character array whose last slot is not
    zero: with the checks compiled in it prints "String literal must be
    null-terminated" and terminates; with the checks compiled out it
    returns an instance that holds the array unchanged, last slot
    included. *)
Theorem String_from_str_unterminated (N : nat) (str : list Z) (c : Z) :
  length str = S N → str !! N = Some c → c ≠ NUL →
  String_from_str true N str = Terminates "String literal must be null-terminated" ∧
  String_from_str false N str = Returns (mkString N str) ∧
  ¬ terminated (mkString N str).
Proof.
  intros Hlen Hc Hne. split; [|split].
  - unfold String_from_str, arr_from_str, FS_ASSERT.
    rewrite (array_at_lookup _ _ _ Hc). monad_simpl.
    by destruct (Z.eqb_spec c NUL).
  - apply String_from_str_value; auto.
  - unfold terminated. simpl. rewrite Hc. by intros [=].
Qed.

Lemma String_from_str_unterminated_witness :
  String_from_str true 2 [97; 98; 99]%Z
  = Terminates "String literal must be null-terminated" ∧
  String_from_str false 2 [97; 98; 99]%Z = Returns (mkString 2 [97; 98; 99]%Z) ∧
  ¬ terminated (mkString 2 [97; 98; 99]%Z).
Proof.
  apply (String_from_str_unterminated 2 [97; 98; 99]%Z 99); [reflexivity | reflexivity |].
  unfold NUL. lia.
Defined.

(** X5: with the checks compiled in, the constructor from a
    [std::array<char, N + 1>] returns (the instance holding that array)
    exactly when slot [N] is zero, and otherwise prints "char array must be
    null-terminated" and terminates. *)
Theorem String_from_array_checks (N : nat) (buf : list Z) :
  length buf = S N →
  (buf !! N = Some NUL → String_from_array true N buf = Returns (mkString N buf)) ∧
  (buf !! N ≠ Some NUL →
   String_from_array true N buf = Terminates "char array must be null-terminated").
Proof.
  intros Hlen. split.
  - intros Hterm. apply String_from_array_value. auto.
  - intros Hne. unfold String_from_array, FS_ASSERT. simpl.
    destruct (lookup_lt_is_Some_2 buf N) as [c Hc]; [lia|].
    rewrite (array_at_lookup _ _ _ Hc). monad_simpl.
    destruct (Z.eqb_spec c NUL) as [->|]; [done|done].
Qed.

Lemma String_from_array_checks_witness :
  String_from_array true 1 [97; 98]%Z = Terminates "char array must be null-terminated" ∧
  String_from_array true 1 [97; 0]%Z = Returns (mkString 1 [97; 0]%Z).
Proof.
  destruct (String_from_array_checks 1 [97; 98]%Z) as [_ Hbad]; [reflexivity|].
  destruct (String_from_array_checks 1 [97; 0]%Z) as [Hgood _]; [reflexivity|].
  split; [apply Hbad; by intros [=] | apply Hgood; reflexivity].
Defined.

(** The deduction guide and the constructor on an array of [L + 1] slots. *)
Lemma String_of_literal_array (checks : bool) (L : nat) (str : list Z) :
  length str = S L → (checks = false ∨ str !! L = Some NUL) →
  String_of_literal checks str = well_formed (Returns (mkString L str)).
Proof.
  intros Hlen Hterm. unfold String_of_literal. rewrite Hlen. simpl.
  rewrite Nat.sub_0_r. f_equal. by apply String_from_str_value.
Qed.

(** A string literal is an array of its bytes and one terminator, for
    either signedness of plain [char]. *)
Lemma literal_array (signed_char : bool) (lit : string) :
  length (literal signed_char lit) = S (String.length lit) ∧
  literal signed_char lit !! String.length lit = Some NUL ∧
  take (String.length lit) (literal signed_char lit)
  = map (char_of_byte signed_char) (list_ascii_of_string lit).
Proof.
  assert (length (map (char_of_byte signed_char) (list_ascii_of_string lit))
          = String.length lit) as Hlm
    by (by rewrite length_map, length_list_ascii_of_string).
  unfold literal. split; [|split].
  - rewrite length_app, Hlm. simpl. lia.
  - rewrite lookup_app_r by lia. by rewrite Hlm, Nat.sub_diag.
  - by apply take_app_length'.
Qed.

(** X6: a null-terminated character array survives construction: in both
    builds [String{str}] for an array [str] of [L + 1] slots ending in zero
    is the [String<L>] whose [c_str()] is [str] itself and whose
    [operator[](i)], for [i < L], is [str[i]]. A string literal is such an
    array, whether plain [char] is signed or not: [String{"..."}] is the
    [String<L>] for the [L] bytes of the literal, and its content is those
    bytes as [char] values. *)
Theorem String_of_literal_c_str (checks : bool) :
  (∀ L str, length str = S L → str !! L = Some NUL →
     ∃ s, String_of_literal checks str = well_formed (Returns s) ∧
          size s = L ∧ c_str s = str ∧ content s = take L str ∧
          ∀ i, i < L → ∃ c, str !! i = Some c ∧ subscript checks s i = Returns c) ∧
  (∀ signed_char lit,
     ∃ s, String_of_literal checks (literal signed_char lit) = well_formed (Returns s) ∧
          size s = String.length lit ∧ c_str s = literal signed_char lit ∧
          content s = map (char_of_byte signed_char) (list_ascii_of_string lit)).
Proof.
  split.
  - intros L str Hlen Hterm. exists (mkString L str).
    split; [apply String_of_literal_array; auto|].
    split; [done|]. split; [done|]. split; [done|].
    intros i Hi. destruct (lookup_lt_is_Some_2 str i) as [c Hc]; [lia|].
    exists c. split; [done|]. by apply subscript_in_range.
  - intros sg lit. destruct (literal_array sg lit) as (Hlen & Hterm & Htake).
    exists (mkString (String.length lit) (literal sg lit)).
    split; [apply String_of_literal_array; auto|]. by split.
Qed.

Lemma String_of_literal_c_str_witness :
  (∃ s, String_of_literal true [chr "a"; chr "b"; NUL] = well_formed (Returns s) ∧
        size s = 2 ∧ c_str s = [chr "a"; chr "b"; NUL] ∧
        content s = take 2 [chr "a"; chr "b"; NUL] ∧
        ∀ i, i < 2 → ∃ c, [chr "a"; chr "b"; NUL] !! i = Some c ∧
                          subscript true s i = Returns c) ∧
  literal true (string_of_list_ascii ["255"%char]) = [(-1)%Z; NUL] ∧
  literal false (string_of_list_ascii ["255"%char]) = [255%Z; NUL].
Proof.
  destruct (String_of_literal_c_str true) as [Harr _].
  split; [apply (Harr 2 [chr "a"; chr "b"; NUL]); reflexivity|].
  split; reflexivity.
Defined.

(** ** Indexing with the checks compiled out *)

(** X7: with [NDEBUG] or [FS_NOASSERT], [operator[]] does not stop an index
    that is too large: at [i = N] it returns whatever slot [N] holds (the
    terminator, for an instance satisfying I1), and at any [i > N] it
    indexes the [std::array] outside its bounds. *)
Theorem subscript_unchecked (s : String) (i : nat) :
  well_typed s →
  (terminated s → subscript false s (size s) = Returns NUL) ∧
  (size s < i → subscript false s i = Undefined) ∧
  (i ≤ size s → ∃ c, _arr s !! i = Some c ∧ subscript false s i = Returns c).
Proof.
  intros Hs. unfold subscript, FS_ASSERT, array_at. monad_simpl. split; [|split].
  - unfold terminated. by intros ->.
  - intros Hi. unfold well_typed in Hs.
    by rewrite (proj2 (lookup_ge_None (_arr s) i)) by lia.
  - intros Hi. destruct (well_typed_lookup s i Hs Hi) as [c Hc].
    exists c. by rewrite Hc.
Qed.

Lemma subscript_unchecked_witness :
  subscript false (mkString 2 [97; 98; 0]%Z) 2 = Returns NUL ∧
  subscript false (mkString 2 [97; 98; 0]%Z) 3 = Undefined.
Proof.
  destruct (subscript_unchecked (mkString 2 [97; 98; 0]%Z) 3) as (Hterm & Hout & _);
    [reflexivity|].
  split; [apply Hterm; reflexivity | apply Hout; simpl; lia].
Defined.

(** ** Equality *)

Lemma equal_refl (l : list Z) : equal l l = true.
Proof. induction l as [|x l IH]; simpl; [done|]. by rewrite Z.eqb_refl, IH. Qed.

Lemma streq_eq (a b : String) :
  well_typed a → well_typed b → streq a b = true ↔ a = b.
Proof.
  intros Ha Hb. unfold streq. split.
  - destruct (Nat.eqb_spec (size a) (size b)) as [HN|]; simpl; [|done].
    intros Heq. apply String_eq; [done|].
    apply equal_true; [|done]. unfold well_typed in *. lia.
  - intros ->. by rewrite Nat.eqb_refl, equal_refl.
Qed.

(** X8: [streq] (and [operator==]) is structural equality: it returns
    [true] exactly when the two operands are the same [String<N>] with the
    same [N + 1] slots. *)
Theorem streq_structural (a b : String) :
  well_typed a → well_typed b →
  (streq a b = true ↔ a = b) ∧ (eq_op a b = true ↔ size a = size b ∧ _arr a = _arr b).
Proof.
  intros Ha Hb. split; [by apply streq_eq|].
  unfold eq_op. rewrite streq_eq by done. split.
  - by intros ->.
  - intros [HN Harr]. by apply String_eq.
Qed.

Lemma streq_structural_witness :
  streq (mkString 1 [97; 0]%Z) (mkString 1 [97; 1]%Z) = true ↔
  mkString 1 [97; 0]%Z = mkString 1 [97; 1]%Z.
Proof.
  apply (streq_structural (mkString 1 [97; 0]%Z) (mkString 1 [97; 1]%Z)); reflexivity.
Defined.

(** X9: [streq] is an equivalence: reflexive, symmetric and transitive,
    across instances of any sizes. *)
Theorem streq_equivalence (a b c : String) :
  well_typed a → well_typed b → well_typed c →
  streq a a = true ∧
  streq a b = streq b a ∧
  (streq a b = true → streq b c = true → streq a c = true).
Proof.
  intros Ha Hb Hc. split; [|split].
  - by apply streq_eq.
  - destruct (streq a b) eqn:Hab.
    + apply streq_eq in Hab as ->; [|done..]. symmetry. by apply streq_eq.
    + destruct (streq b a) eqn:Hba; [|done].
      apply streq_eq in Hba as ->; [|done..].
      rewrite (proj2 (streq_eq a a Ha Ha)) in Hab; done.
  - intros Hab Hbc. apply streq_eq in Hab as ->; done.
Qed.

Lemma streq_equivalence_witness :
  streq (mkString 1 [97; 0]%Z) (mkString 1 [97; 0]%Z) = true ∧
  streq (mkString 1 [97; 0]%Z) (mkString 2 [97; 98; 0]%Z)
  = streq (mkString 2 [97; 98; 0]%Z) (mkString 1 [97; 0]%Z).
Proof.
  destruct (streq_equivalence (mkString 1 [97; 0]%Z) (mkString 2 [97; 98; 0]%Z)
              (mkString 1 [97; 0]%Z)) as (Hrefl & Hsym & _); try reflexivity.
  by split.
Defined.

(** ** Concatenation and substrings together *)

(** The buffer of an instance that satisfies I1: content, terminator. *)
Lemma arr_content (s : String) :
  well_typed s → terminated s → _arr s = content s ++ [NUL].
Proof.
  unfold well_typed, terminated, content. intros Hs Ht.
  rewrite <- (take_drop (size s) (_arr s)) at 1. f_equal.
  rewrite (drop_S _ NUL (size s)) by done. by rewrite drop_ge by lia.
Qed.

Lemma String_ext (s t : String) :
  well_typed s → well_typed t → terminated s → terminated t →
  size s = size t → content s = content t → s = t.
Proof.
  intros Hs Ht Ts Tt HN Hc. apply String_eq; [done|].
  by rewrite (arr_content s), (arr_content t), Hc.
Qed.

Lemma substring_content (checks : bool) (Begin End : nat) (s : String) :
  well_typed s → Begin ≤ End → End ≤ size s →
  ∃ r, substring checks Begin End s = well_formed (Returns r) ∧
       well_typed r ∧ terminated r ∧ size r = End - Begin ∧
       content r = take (End - Begin) (drop Begin (content s)).
Proof.
  intros Hs HBE HEN. eexists. split; [by apply substring_value|].
  assert (length (take (End - Begin) (drop Begin (_arr s))) = End - Begin) as Hlen.
  { unfold well_typed in Hs. rewrite length_take, length_drop. lia. }
  unfold well_typed, terminated, content. simpl. repeat split.
  - rewrite length_app, Hlen. simpl. lia.
  - rewrite lookup_app_r by lia. by rewrite Hlen, Nat.sub_diag.
  - rewrite take_app_length' by done.
    rewrite !take_drop_commute, take_take. do 2 f_equal. lia.
Qed.

(** X10: the empty instance is a unit of [operator+]: for an instance [a]
    satisfying I1, [a + String<0>{}] and [String<0>{} + a] are [a]. *)
Theorem plus_empty (a : String) :
  well_typed a → terminated a →
  plus a (String_default 0) = a ∧ plus (String_default 0) a = a.
Proof.
  intros Ha Ta. split; apply String_eq.
  - rewrite size_plus. simpl. lia.
  - rewrite plus_arr by done. by rewrite (arr_content a).
  - by rewrite size_plus.
  - rewrite plus_arr by done. by rewrite (arr_content a).
Qed.

Lemma plus_empty_witness :
  plus (mkString 2 [97; 98; 0]%Z) (String_default 0) = mkString 2 [97; 98; 0]%Z ∧
  plus (String_default 0) (mkString 2 [97; 98; 0]%Z) = mkString 2 [97; 98; 0]%Z.
Proof. apply (plus_empty (mkString 2 [97; 98; 0]%Z)); reflexivity. Defined.

(** X11: [substring] undoes [operator+]: for [a : String<N>] and
    [b : String<M>] satisfying I1, [substring<0, N>(a + b)] is [a] and
    [substring<N, N + M>(a + b)] is [b], in both builds. *)
Theorem substring_plus (checks : bool) (a b : String) :
  well_typed a → well_typed b → terminated a → terminated b →
  substring checks 0 (size a) (plus a b) = well_formed (Returns a) ∧
  substring checks (size a) (size a + size b) (plus a b) = well_formed (Returns b).
Proof.
  intros Ha Hb Ta Tb. pose proof (plus_well_typed a b Ha Hb) as Hab.
  pose proof (length_content a Ha) as Hla. pose proof (length_content b Hb) as Hlb.
  split.
  - destruct (substring_content checks 0 (size a) (plus a b))
      as (r & -> & Hr & Tr & HN & Hc); [done | lia | rewrite size_plus; lia |].
    do 2 f_equal. apply String_ext; [done.. | lia |].
    rewrite Hc, content_plus, drop_0, Nat.sub_0_r by done.
    by apply take_app_length'.
  - destruct (substring_content checks (size a) (size a + size b) (plus a b))
      as (r & -> & Hr & Tr & HN & Hc); [done | lia | rewrite size_plus; lia |].
    do 2 f_equal. apply String_ext; [done.. | lia |].
    rewrite Hc, content_plus by done.
    rewrite drop_app_length' by done.
    apply take_ge. lia.
Qed.

Lemma substring_plus_witness :
  substring true 0 2 (plus (mkString 2 [97; 98; 0]%Z) (mkString 1 [99; 0]%Z))
  = well_formed (Returns (mkString 2 [97; 98; 0]%Z)) ∧
  substring true 2 3 (plus (mkString 2 [97; 98; 0]%Z) (mkString 1 [99; 0]%Z))
  = well_formed (Returns (mkString 1 [99; 0]%Z)).
Proof.
  apply (substring_plus true (mkString 2 [97; 98; 0]%Z) (mkString 1 [99; 0]%Z));
    reflexivity.
Defined.

(** X12: cutting an instance in two and concatenating the pieces gives it
    back: for [k <= N] and [s] satisfying I1,
    [substring<0, k>(s) + substring<k, N>(s)] is [s]. *)
Theorem plus_substrings (checks : bool) (k : nat) (s : String) :
  well_typed s → terminated s → k ≤ size s →
  ∃ l r, substring checks 0 k s = well_formed (Returns l) ∧
         substring checks k (size s) s = well_formed (Returns r) ∧
         plus l r = s.
Proof.
  intros Hs Ts Hk.
  destruct (substring_content checks 0 k s) as (l & Hl & Wl & Tl & Nl & Cl);
    [done | lia | done |].
  destruct (substring_content checks k (size s) s) as (r & Hr & Wr & Tr & Nr & Cr);
    [done | lia | lia |].
  exists l, r. split; [done|]. split; [done|].
  apply String_ext; [by apply plus_well_typed | done | apply plus_terminated | done | |].
  - rewrite size_plus. lia.
  - rewrite content_plus, Cl, Cr, drop_0, Nat.sub_0_r by done.
    rewrite (take_ge (drop k (content s))) by (rewrite length_drop, length_content; done || lia).
    apply take_drop.
Qed.

Lemma plus_substrings_witness :
  ∃ l r, substring true 0 1 (mkString 3 [97; 98; 99; 0]%Z) = well_formed (Returns l) ∧
         substring true 1 3 (mkString 3 [97; 98; 99; 0]%Z) = well_formed (Returns r) ∧
         plus l r = mkString 3 [97; 98; 99; 0]%Z.
Proof.
  apply (plus_substrings true 1 (mkString 3 [97; 98; 99; 0]%Z));
    [reflexivity | reflexivity | simpl; lia].
Defined.

(** X13: substrings compose: taking [substring<B2, E2>] of
    [substring<B1, E1>(s)] is [substring<B1 + B2, B1 + E2>(s)]. *)
Theorem substring_substring (checks : bool) (B1 E1 B2 E2 : nat) (s : String) :
  well_typed s → B1 ≤ E1 → E1 ≤ size s → B2 ≤ E2 → E2 ≤ E1 - B1 →
  ∃ r, substring checks B1 E1 s = well_formed (Returns r) ∧
       substring checks B2 E2 r = substring checks (B1 + B2) (B1 + E2) s.
Proof.
  intros Hs H1 H2 H3 H4.
  destruct (substring_content checks B1 E1 s) as (r & Hr & Wr & Tr & Nr & Cr); [done..|].
  exists r. split; [done|].
  destruct (substring_content checks B2 E2 r) as (t & -> & Wt & Tt & Nt & Ct);
    [done | done | lia |].
  destruct (substring_content checks (B1 + B2) (B1 + E2) s)
    as (u & -> & Wu & Tu & Nu & Cu); [done | lia | lia |].
  do 2 f_equal. apply String_ext; [done.. | lia |].
  rewrite Ct, Cu, Cr.
  rewrite (take_drop_commute _ (E2 - B2) B2), take_take.
  replace (B2 + (E2 - B2)) with E2 by lia.
  rewrite Nat.min_l by lia.
  rewrite <- drop_drop, (take_drop_commute _ _ B2).
  do 2 f_equal. lia.
Qed.

Lemma substring_substring_witness :
  ∃ r, substring true 1 4 (mkString 5 [97; 98; 99; 100; 101; 0]%Z)
       = well_formed (Returns r) ∧
       substring true 1 2 r = substring true 2 3 (mkString 5 [97; 98; 99; 100; 101; 0]%Z).
Proof.
  apply (substring_substring true 1 4 1 2 (mkString 5 [97; 98; 99; 100; 101; 0]%Z));
    (reflexivity || (simpl; lia)).
Defined.

(** ** Concatenation with a character or a literal *)

(** X14: [operator+] with an operand that is not a [String]: [s + c] and
    [c + s] for a character append and prepend that character; [s + str]
    and [str + s] for a character array [str] of [L + 1] slots ending in
    zero (a string literal is one, for either signedness of plain [char])
    append and prepend its first [L] characters; the sizes add up, the
    result is terminated, and no assertion fails in either build. *)
Theorem plus_heterogeneous (checks : bool) (s : String) (c : Z) :
  well_typed s →
  (size (plus_char_r s c) = size s + 1 ∧ content (plus_char_r s c) = content s ++ [c]) ∧
  (size (plus_char_l c s) = 1 + size s ∧ content (plus_char_l c s) = c :: content s) ∧
  (∀ L str, length str = S L → str !! L = Some NUL →
     ∃ r, plus_literal_r checks s str = well_formed (Returns r) ∧
          size r = size s + L ∧ terminated r ∧
          content r = content s ++ take L str) ∧
  (∀ L str, length str = S L → str !! L = Some NUL →
     ∃ l, plus_literal_l checks str s = well_formed (Returns l) ∧
          size l = L + size s ∧ terminated l ∧
          content l = take L str ++ content s) ∧
  (∀ signed_char lit,
     ∃ r l, plus_literal_r checks s (literal signed_char lit) = well_formed (Returns r) ∧
            plus_literal_l checks (literal signed_char lit) s = well_formed (Returns l) ∧
            content r = content s ++ map (char_of_byte signed_char) (list_ascii_of_string lit) ∧
            content l = map (char_of_byte signed_char) (list_ascii_of_string lit) ++ content s).
Proof.
  intros Hs.
  assert (well_typed (String_from_char c)) as Hc by done.
  assert (∀ L str, length str = S L → str !! L = Some NUL →
          plus_literal_r checks s str = well_formed (Returns (plus s (mkString L str))) ∧
          plus_literal_l checks str s = well_formed (Returns (plus (mkString L str) s)) ∧
          well_typed (mkString L str) ∧ content (mkString L str) = take L str) as Harr.
  { intros L str Hlen Hterm. unfold plus_literal_r, plus_literal_l.
    rewrite (String_of_literal_array checks L str) by auto. by monad_simpl. }
  split; [|split; [|split; [|split]]].
  - split; [done|]. unfold plus_char_r. by rewrite content_plus.
  - split; [done|]. unfold plus_char_l. by rewrite content_plus.
  - intros L str Hlen Hterm. destruct (Harr L str Hlen Hterm) as (-> & _ & Hw & Hct).
    eexists. split; [done|]. split; [done|]. split; [apply plus_terminated|].
    by rewrite content_plus, Hct.
  - intros L str Hlen Hterm. destruct (Harr L str Hlen Hterm) as (_ & -> & Hw & Hct).
    eexists. split; [done|]. split; [done|]. split; [apply plus_terminated|].
    by rewrite content_plus, Hct.
  - intros sg lit. destruct (literal_array sg lit) as (Hlen & Hterm & Htake).
    destruct (Harr _ _ Hlen Hterm) as (-> & -> & Hw & Hct).
    eexists _, _. split; [done|]. split; [done|].
    by rewrite !content_plus, Hct, Htake.
Qed.

Lemma plus_heterogeneous_witness :
  ∃ r, plus_literal_r true (mkString 1 [97; 0]%Z) (literal true "bc")
       = well_formed (Returns r) ∧
       size r = 1 + 2 ∧ terminated r ∧
       content r = [97]%Z ++ take 2 (literal true "bc").
Proof.
  destruct (plus_heterogeneous true (mkString 1 [97; 0]%Z) 0%Z) as (_ & _ & Hr & _);
    [reflexivity|].
  apply (Hr 2 (literal true "bc")); reflexivity.
Defined.

(** ** Decimal numbers *)

Local Open Scope Z_scope.

Lemma weighted_sum_app (l1 l2 : list Z) :
  weighted_sum (l1 ++ l2) =
  weighted_sum l1 * 10 ^ Z.of_nat (length l2) + weighted_sum l2.
Proof.
  induction l1 as [|a l1 IH]; simpl; [lia|].
  rewrite IH, length_app, Nat2Z.inj_add, Z.pow_add_r by lia. ring.
Qed.

(** X15: [atoi()] reads decimal numbers: on an instance whose content is
    the canonical decimal representation of [x] (["0"] for zero, no leading
    zero otherwise) and [x] fits [std::size_t], it returns [x]. *)
Theorem atoi_canonical (w : N) (x : N) (s : String) :
  well_typed s → content s = canonical_decimal x → Z.of_N x < 2 ^ Z.of_N w →
  atoi w s = Returns (Z.of_N x).
Proof.
  intros Hs Hc Hx. rewrite atoi_value, Hc by done. f_equal.
  assert (weighted_sum (canonical_decimal x) = Z.of_N x) as ->.
  { unfold canonical_decimal. destruct (N.eq_dec x 0%N) as [->|]; [done|].
    apply weighted_sum_digits. }
  apply Z.mod_small. lia.
Qed.

Lemma atoi_canonical_witness :
  atoi 64 (mkString 3 [chr "1"; chr "0"; chr "7"; NUL]) = Returns 107.
Proof.
  apply (atoi_canonical 64 107 (mkString 3 [chr "1"; chr "0"; chr "7"; NUL]));
    [reflexivity | reflexivity | vm_compute; reflexivity].
Defined.

(** X16: [atoi()] of a concatenation: [(a + b).atoi()] is
    [a.atoi() * 10 ^ M + b.atoi()] in [std::size_t] arithmetic, for
    [b : String<M>]. *)
Theorem atoi_plus (w : N) (a b : String) :
  well_typed a → well_typed b →
  ∃ ra rb, atoi w a = Returns ra ∧ atoi w b = Returns rb ∧
           atoi w (plus a b) =
           Returns ((ra * 10 ^ Z.of_nat (size b) + rb) mod 2 ^ Z.of_N w).
Proof.
  intros Ha Hb. pose proof (plus_well_typed a b Ha Hb) as Hab.
  eexists _, _. rewrite !atoi_value, content_plus by done.
  split; [done|]. split; [done|]. f_equal.
  rewrite weighted_sum_app, length_content by done.
  unfold wrap. pose proof (wrap_pos w).
  symmetry. rewrite Z.add_mod, Z.mul_mod_idemp_l, Z.mod_mod, <- Z.add_mod by lia. done.
Qed.

Lemma atoi_plus_witness :
  ∃ ra rb, atoi 64 (mkString 1 [chr "4"; NUL]) = Returns ra ∧
           atoi 64 (mkString 2 [chr "2"; chr "7"; NUL]) = Returns rb ∧
           atoi 64 (plus (mkString 1 [chr "4"; NUL]) (mkString 2 [chr "2"; chr "7"; NUL])) =
           Returns ((ra * 10 ^ Z.of_nat 2 + rb) mod 2 ^ Z.of_N 64).
Proof.
  apply (atoi_plus 64 (mkString 1 [chr "4"; NUL]) (mkString 2 [chr "2"; chr "7"; NUL]));
    reflexivity.
Defined.

Local Close Scope Z_scope.

(** X17: [log10<x>] is the number of decimal digits of [x], not the
    logarithm: for [x > 0], [10 ^ (log10<x> - 1) <= x < 10 ^ log10<x>]
    (so [log10<9> = 1] and [log10<10> = 2]), and [log10<0> = 0]. *)
Theorem log10_digit_count (x : N) :
  x ≠ 0%N →
  (1 <= log10 x)%N ∧ (10 ^ (log10 x - 1) <= x)%N ∧ (x < 10 ^ log10 x)%N ∧
  length (digits x) = N.to_nat (log10 x).
Proof.
  intros Hx. split; [rewrite log10_pos by done; lia|].
  split; [|split; [|apply length_digits]].
  - induction x as [|x _ IH] using div10_ind; [done|].
    rewrite log10_pos by done.
    replace (1 + log10 (x / 10) - 1)%N with (log10 (x / 10)%N) by lia.
    destruct (N.eq_dec (x / 10)%N 0%N) as [Hq|Hq].
    + rewrite Hq, log10_0. simpl. lia.
    + specialize (IH Hq). rewrite log10_pos in * by done.
      replace (1 + log10 (x / 10 / 10) - 1)%N with (log10 (x / 10 / 10)%N) in IH by lia.
      rewrite N.pow_add_r, N.pow_1_r.
      pose proof (N.Div0.mul_div_le x 10) as Hle.
      revert IH Hle. generalize (log10 (x / 10 / 10)%N). generalize (x / 10)%N.
      intros q e IH Hle. nia.
  - induction x as [|x _ IH] using div10_ind; [done|].
    rewrite log10_pos by done.
    rewrite N.pow_add_r, N.pow_1_r.
    assert (x / 10 < 10 ^ log10 (x / 10))%N as Hlt.
    { destruct (N.eq_dec (x / 10)%N 0%N) as [Hq|Hq]; [|by apply IH].
      rewrite Hq, log10_0. simpl. lia. }
    assert (10 ≠ 0)%N as H10 by lia.
    pose proof (N.div_mod x 10 H10) as Hdm.
    pose proof (N.mod_lt x 10 H10) as Hr.
    revert Hlt Hdm Hr.
    generalize (10 ^ log10 (x / 10))%N (x / 10)%N (x mod 10)%N. intros p q r. lia.
Qed.

Lemma log10_digit_count_witness :
  (1 <= log10 1000)%N ∧ (10 ^ (log10 1000 - 1) <= 1000)%N ∧ (1000 < 10 ^ log10 1000)%N ∧
  length (digits 1000) = N.to_nat (log10 1000).
Proof. apply (log10_digit_count 1000). lia. Defined.

(** X18: the digits are in [itoa<x>] behind its first slot: for every [x],
    [substring<1, log10<x> + 1>(itoa<x>)] is well-formed, its content is the
    decimal digits of [x] (none for [0]), and [atoi()] of it is [x] reduced
    modulo [2 ^ w]. *)
Theorem itoa_substring_atoi (checks : bool) (w : N) (x : N) :
  ∃ s r, itoa checks x = Returns s ∧
         substring checks 1 (size s) s = well_formed (Returns r) ∧
         size r = N.to_nat (log10 x) ∧
         content r = digits x ∧
         atoi w r = Returns (Z.of_N x mod 2 ^ Z.of_N w)%Z.
Proof.
  set (s := mkString (N.to_nat (log10 x) + 1) (NUL :: digits x ++ [NUL])).
  assert (well_typed s) as Hs.
  { unfold well_typed, s. simpl. rewrite length_app, length_digits. simpl. lia. }
  assert (content s = NUL :: digits x) as Hcs.
  { unfold content, s. simpl. rewrite Nat.add_1_r. simpl. f_equal.
    apply take_app_length'. by rewrite length_digits. }
  destruct (substring_content checks 1 (size s) s) as (r & Hr & Wr & Tr & Nr & Cr);
    [done | simpl; lia | done |].
  exists s, r. split; [apply itoa_value|]. split; [done|].
  assert (content r = digits x) as Hcr.
  { rewrite Cr, Hcs. simpl. rewrite drop_0. apply take_ge.
    rewrite length_digits. lia. }
  split; [simpl in Nr; lia|]. split; [done|].
  rewrite atoi_value, Hcr, weighted_sum_digits by done. done.
Qed.

(** ** What [itoa] holds, for every argument *)

Lemma digits_range (x : N) : Forall (λ c, 48 ≤ c ≤ 57)%Z (digits x).
Proof.
  induction x as [|x Hx IH] using div10_ind; [by rewrite digits_0|].
  rewrite digits_pos by done. apply Forall_app. split; [done|].
  apply Forall_singleton. change (chr "0") with 48%Z.
  assert (10 ≠ 0)%N as H10 by lia. pose proof (N.mod_lt x 10 H10) as Hr.
  revert Hr. generalize (x mod 10)%N. intros r Hr. lia.
Qed.

Lemma digits_head (x : N) :
  x ≠ 0%N → ∃ d rest, digits x = d :: rest ∧ d ≠ chr "0".
Proof.
  induction x as [|x _ IH] using div10_ind; [done|]. intros Hx.
  rewrite digits_pos by done.
  destruct (N.eq_dec (x / 10)%N 0%N) as [Hq|Hq].
  - rewrite Hq, digits_0. eexists _, []. split; [done|].
    assert (10 ≠ 0)%N as H10 by lia. pose proof (N.div_mod x 10 H10) as Hdm.
    rewrite Hq in Hdm. revert Hdm. generalize (x mod 10)%N. intros r Hdm. lia.
  - destruct (IH Hq) as (d & rest & -> & Hd). by eexists _, _.
Qed.

(** X19: for every [x], [itoa<x>] is constructed (no assertion fails), it is
    a [String<d + 1>] for the [d] decimal digits of [x], and its buffer is a
    zero character, the [d] digit characters (each in ['0'..'9'], the first
    not ['0'], their decimal value [x]) and the terminator: [itoa<x>[0]] is
    ['\0'] and [find('\0')] is [0], so read as a C string it is empty. *)
Theorem itoa_shape (checks : bool) (x : N) :
  ∃ s, itoa checks x = Returns s ∧
       size s = S (length (digits x)) ∧
       c_str s = NUL :: digits x ++ [NUL] ∧
       subscript checks s 0 = Returns NUL ∧
       find checks s NUL = Returns 0 ∧
       Forall (λ c, 48 ≤ c ≤ 57)%Z (digits x) ∧
       weighted_sum (digits x) = Z.of_N x ∧
       (x ≠ 0%N → ∃ d rest, digits x = d :: rest ∧ d ≠ chr "0").
Proof.
  set (s := mkString (N.to_nat (log10 x) + 1) (NUL :: digits x ++ [NUL])).
  assert (well_typed s) as Hs.
  { unfold well_typed, s. simpl. rewrite length_app, length_digits. simpl. lia. }
  exists s. split; [apply itoa_value|].
  split; [unfold s; simpl; rewrite length_digits; lia|].
  split; [done|].
  split; [apply subscript_in_range; [unfold s; simpl; lia | done]|].
  split.
  { rewrite find_value by done. unfold content, s. simpl.
    by rewrite Nat.add_1_r. }
  split; [apply digits_range|]. split; [apply weighted_sum_digits | apply digits_head].
Qed.

Local Open Scope Z_scope.

(** If the round trip gave [x] back, [2 ^ w] would divide [48 * 10 ^ d]. *)
Lemma round_trip_divides (checks : bool) (w : N) (x : N) :
  Z.of_N x < 2 ^ Z.of_N w →
  (itoa checks x ≫= atoi w) = Returns (Z.of_N x) →
  (48 * 10 ^ Z.of_N (log10 x)) mod 2 ^ Z.of_N w = 0.
Proof.
  intros Hx. rewrite atoi_itoa. intros [= Heq].
  rewrite <- (Z.mod_small (Z.of_N x) (2 ^ Z.of_N w)) in Heq at 2 by lia.
  revert Heq. generalize (48 * 10 ^ Z.of_N (log10 x)) (Z.of_N x). intros K y Heq.
  replace K with (y - (y - K)) by ring.
  by rewrite Zminus_mod, Heq, Z.sub_diag.
Qed.

(** X20: [atoi()] never undoes [itoa]: with a [std::size_t] of 16, 32 or
    64 bits, [itoa<x>.atoi()] differs from [x] for every [x] that fits
    [std::size_t]. *)
Theorem round_trip_never (checks : bool) (x : N) :
  ((x < 2 ^ 16)%N → (itoa checks x ≫= atoi 16) ≠ Returns (Z.of_N x)) ∧
  ((x < 2 ^ 32)%N → (itoa checks x ≫= atoi 32) ≠ Returns (Z.of_N x)) ∧
  ((x < 2 ^ 64)%N → (itoa checks x ≫= atoi 64) ≠ Returns (Z.of_N x)).
Proof.
  split; [|split; [|apply atoi_itoa_never]].
  - intros Hx Heq. apply round_trip_divides in Heq;
      [|change (2 ^ Z.of_N 16) with (Z.of_N (2 ^ 16)); lia].
    assert (log10 x <= 5)%N as Hd.
    { apply (log10_bound 5). eapply N.lt_trans; [done|]. by vm_compute. }
    revert Hd Heq. generalize (log10 x). intros d Hd.
    assert (N.to_nat d < 6)%nat as Hlt by lia.
    rewrite <- (N2Nat.id d). generalize dependent (N.to_nat d). clear. intros n Hn.
    do 6 (destruct n as [|n]; [by vm_compute|]). lia.
  - intros Hx Heq. apply round_trip_divides in Heq;
      [|change (2 ^ Z.of_N 32) with (Z.of_N (2 ^ 32)); lia].
    assert (log10 x <= 10)%N as Hd.
    { apply (log10_bound 10). eapply N.lt_trans; [done|]. by vm_compute. }
    revert Hd Heq. generalize (log10 x). intros d Hd.
    assert (N.to_nat d < 11)%nat as Hlt by lia.
    rewrite <- (N2Nat.id d). generalize dependent (N.to_nat d). clear. intros n Hn.
    do 11 (destruct n as [|n]; [by vm_compute|]). lia.
Qed.

Lemma round_trip_never_witness :
  (itoa true 7 ≫= atoi 16) ≠ Returns 7 ∧
  (itoa true 4000000000 ≫= atoi 32) ≠ Returns 4000000000 ∧
  (itoa false 0 ≫= atoi 64) ≠ Returns 0.
Proof.
  destruct (round_trip_never true 7) as (H16 & _ & _).
  destruct (round_trip_never true 4000000000) as (_ & H32 & _).
  destruct (round_trip_never false 0) as (_ & _ & H64).
  split; [|split]; [apply H16 | apply H32 | apply H64]; reflexivity.
Defined.

Local Close Scope Z_scope.

(** ** Cancellation *)

(** X21: [operator+] loses nothing: for instances satisfying I1 with
    [a] and [c] of the same size, [a + b] and [c + d] are equal exactly
    when [a] equals [c] and [b] equals [d]. *)
Theorem plus_cancel (a b c d : String) :
  well_typed a → well_typed b → well_typed c → well_typed d →
  terminated a → terminated b → terminated c → terminated d →
  size a = size c →
  streq (plus a b) (plus c d) = true ↔ streq a c = true ∧ streq b d = true.
Proof.
  intros Ha Hb Hc Hd Ta Tb Tc Td HN.
  rewrite !streq_eq by (done || by apply plus_well_typed). split.
  - intros Heq.
    assert (content a ++ content b = content c ++ content d) as Happ.
    { rewrite <- !content_plus by done. by rewrite Heq. }
    assert (size b = size d) as HM.
    { apply (f_equal size) in Heq. rewrite !size_plus in Heq. lia. }
    apply app_inj_1 in Happ as [Hac Hbd]; [|by rewrite !length_content].
    split; by apply String_ext.
  - by intros [-> ->].
Qed.

Lemma plus_cancel_witness :
  streq (plus (mkString 1 [97; 0]%Z) (mkString 1 [98; 0]%Z))
        (plus (mkString 1 [97; 0]%Z) (mkString 1 [99; 0]%Z)) = true ↔
  streq (mkString 1 [97; 0]%Z) (mkString 1 [97; 0]%Z) = true ∧
  streq (mkString 1 [98; 0]%Z) (mkString 1 [99; 0]%Z) = true.
Proof.
  apply (plus_cancel (mkString 1 [97; 0]%Z) (mkString 1 [98; 0]%Z)
           (mkString 1 [97; 0]%Z) (mkString 1 [99; 0]%Z)); reflexivity.
Defined.

End fixed.
